(** * Sharetribe process visualizer: EDN reader, graph builder and layout

    A shallow embedding of [client/src/lib/edn-parser.ts], of
    [client/src/lib/graph-generator.ts] and of the state handlers of
    [client/src/pages/home.tsx], and the properties of the
    text -> process -> graph pipeline that the design document states.

    Conventions of the embedding.
    - A JavaScript string is a [string] of code units below 256 (Latin-1).
      The classes [\s] and line terminator are their members in that range.
    - [throw new Error(msg)] is the result [Throw msg]; a function that can
      throw returns a [Result].
    - A JavaScript number is a [JsNum]: an integer or [-Infinity], the only
      non-integer value the layout code can produce.
    - [Map<string, number>] is a [gmap string JsNum]; [Set<string>] used for
      membership only is a [gset string]; a [Set] that is turned back into an
      array is an insertion-ordered list without duplicates.
    - The [useState] cells of a React component are the fields of a record;
      a handler is a function on that record, and what it reads off the
      clock is an argument. *)

From Stdlib Require Import Ascii String ZArith List Lia.
From stdpp Require Import base option list strings gmap pretty sorting.

Local Open Scope Z_scope.

(** ** JavaScript strings *)

Module Str.

Definition is_space (c : ascii) : bool :=
  let n := N_of_ascii c in
  ((9 <=? n) && (n <=? 13) || (n =? 32) || (n =? 160))%N.

Definition is_line_terminator (c : ascii) : bool :=
  let n := N_of_ascii c in ((n =? 10) || (n =? 13))%N.

Definition is_upper (c : ascii) : bool :=
  let n := N_of_ascii c in ((65 <=? n) && (n <=? 90))%N.

Definition is_empty (s : string) : bool :=
  match s with EmptyString => true | String _ _ => false end.

(** A string is truthy when it is not empty. *)
Definition truthy (s : string) : bool := negb (is_empty s).

Fixpoint length (s : string) : nat :=
  match s with EmptyString => O | String _ s' => S (length s') end.

Fixpoint drop (n : nat) (s : string) : string :=
  match n, s with
  | S n', String _ s' => drop n' s'
  | _, _ => s
  end.

Fixpoint take (n : nat) (s : string) : string :=
  match n, s with
  | S n', String c s' => String c (take n' s')
  | _, _ => EmptyString
  end.

Fixpoint rev_onto (s acc : string) : string :=
  match s with
  | EmptyString => acc
  | String c s' => rev_onto s' (String c acc)
  end.

Definition rev (s : string) : string := rev_onto s EmptyString.

(** [s.slice(a, b)] for [0 <= a] and [0 <= b]. *)
Definition slice (a b : nat) (s : string) : string :=
  take (b - a) (drop a s).

(** [s.slice(2, -1)]. *)
Definition slice_2_minus1 (s : string) : string :=
  slice 2 (length s - 1) s.

(** [s.substring(1)]. *)
Definition substring1 (s : string) : string := drop 1 s.

(** [after_lit lit s] is the rest of [s] behind the literal [lit] when [s]
    starts with it. *)
Fixpoint after_lit (lit s : string) : option string :=
  match lit with
  | EmptyString => Some s
  | String a lit' =>
      match s with
      | String b s' => if Ascii.eqb a b then after_lit lit' s' else None
      | EmptyString => None
      end
  end.

Definition startsWith (lit s : string) : bool :=
  match after_lit lit s with Some _ => true | None => false end.

(** [s.replace(/^lit/, '')]. *)
Definition strip_prefix (lit s : string) : string :=
  match after_lit lit s with Some r => r | None => s end.

(** The leftmost position at which [m] succeeds, positions [0 .. length]. *)
Fixpoint find_first {A} (m : string -> option A) (s : string) : option A :=
  match m s with
  | Some r => Some r
  | None =>
      match s with
      | EmptyString => None
      | String _ s' => find_first m s'
      end
  end.

(** [s.includes(lit)]. *)
Definition includes (lit s : string) : bool :=
  match find_first (after_lit lit) s with Some _ => true | None => false end.

(** The longest prefix whose characters satisfy [f], and what follows. *)
Fixpoint span (f : ascii -> bool) (s : string) : string * string :=
  match s with
  | String c s' =>
      if f c then let (a, b) := span f s' in (String c a, b)
      else (EmptyString, s)
  | EmptyString => (EmptyString, EmptyString)
  end.

(** A greedy [c+] for a character class: nothing that follows it in the
    patterns below can match a character of the class, so the longest run
    is the only candidate. *)
Definition plus1 (f : ascii -> bool) (s : string) : option (string * string) :=
  match span f s with
  | (EmptyString, _) => None
  | r => Some r
  end.

Definition trimStart (s : string) : string := snd (span is_space s).

Definition trim (s : string) : string := rev (trimStart (rev (trimStart s))).

(** [s.split(/\s+/)]. *)
Fixpoint split_ws_go (cur : string) (in_sep : bool) (s : string) : list string :=
  match s with
  | EmptyString => [rev cur]
  | String c s' =>
      if is_space c then
        if in_sep then split_ws_go EmptyString true s'
        else rev cur :: split_ws_go EmptyString true s'
      else split_ws_go (String c cur) false s'
  end.

Definition split_ws (s : string) : list string := split_ws_go EmptyString false s.

(** [s.split(/(?=la)/)] for a lookahead [la] that never matches the empty
    suffix: a cut before every position [1 .. length-1] where [la] holds. *)
Fixpoint split_lookahead_go (la : string -> bool) (cur : string) (s : string)
  : list string :=
  match s with
  | EmptyString => [rev cur]
  | String c s' =>
      if la s then rev cur :: split_lookahead_go la (String c EmptyString) s'
      else split_lookahead_go la (String c cur) s'
  end.

Definition split_lookahead (la : string -> bool) (s : string) : list string :=
  match s with
  | EmptyString => [EmptyString]
  | String c s' => split_lookahead_go la (String c EmptyString) s'
  end.

(** The part of [s] before the last occurrence of [c]. *)
Fixpoint up_to_last (c : ascii) (s : string) : option string :=
  match s with
  | EmptyString => None
  | String a s' =>
      match up_to_last c s' with
      | Some r => Some (String a r)
      | None => if Ascii.eqb a c then Some EmptyString else None
      end
  end.

Definition lower_char (c : ascii) : ascii :=
  let n := N_of_ascii c in
  if ((65 <=? n) && (n <=? 90)
      || (192 <=? n) && (n <=? 222) && negb (n =? 215))%N
  then ascii_of_N (n + 32) else c.

(** [s.toLowerCase()]. *)
Fixpoint toLowerCase (s : string) : string :=
  match s with
  | EmptyString => EmptyString
  | String c s' => String (lower_char c) (toLowerCase s')
  end.

(** [s.replace(/([A-Z])/g, '-$1')]. *)
Fixpoint dash_before_upper (s : string) : string :=
  match s with
  | EmptyString => EmptyString
  | String c s' =>
      if is_upper c then String "-" (String c (dash_before_upper s'))
      else String c (dash_before_upper s')
  end.

(** [s.replace(/;.*$/gm, '')]: a comment runs from [;] up to, and not
    including, the next line terminator. *)
Fixpoint strip_comments_go (in_comment : bool) (s : string) : string :=
  match s with
  | EmptyString => EmptyString
  | String c s' =>
      if is_line_terminator c then String c (strip_comments_go false s')
      else if in_comment then strip_comments_go true s'
      else if Ascii.eqb c ";" then strip_comments_go true s'
      else String c (strip_comments_go false s')
  end.

Definition strip_comments (s : string) : string := strip_comments_go false s.

End Str.

(** ** The regular expressions of the reader

    Each pattern is a literal key, a run of white space and a capture. A
    matcher [_at] tries the pattern at the head of its argument;
    [Str.find_first] gives [String.prototype.match] its leftmost start. *)

Module Re.
Import Str.

Definition stop_ws (c : ascii) : bool := is_space c.
Definition stop_ws_comma (c : ascii) : bool := is_space c || Ascii.eqb c ",".
Definition stop_ws_comma_brace (c : ascii) : bool :=
  is_space c || Ascii.eqb c "," || Ascii.eqb c "}".

(** [key\s+:([^stop]+)], group 1. *)
Definition keyword_at (key : string) (stop : ascii -> bool) (s : string)
  : option string :=
  r ← after_lit key s;
  '(_, r) ← plus1 is_space r;
  r ← after_lit ":" r;
  '(cap, _) ← plus1 (λ c, negb (stop c)) r;
  Some cap.

Definition keyword (key : string) (stop : ascii -> bool) (s : string)
  : option string := find_first (keyword_at key stop) s.

(** [open([^close]+)close] at the head: the captured inside. *)
Definition enclosed_at (open : string) (close : ascii) (s : string)
  : option string :=
  r ← after_lit open s;
  '(cap, r) ← plus1 (λ c, negb (Ascii.eqb c close)) r;
  _ ← after_lit (String close EmptyString) r;
  Some cap.

(** [key\s+open([^close]+)close], group 1. *)
Definition enclosed_after_at (key open : string) (close : ascii) (s : string)
  : option string :=
  r ← after_lit key s;
  '(_, r) ← plus1 is_space r;
  enclosed_at open close r.

Definition enclosed_after (key open : string) (close : ascii) (s : string)
  : option string := find_first (enclosed_after_at key open close) s.

(** [:process/transitions], white space, an opening bracket, a greedy
    dot-all capture and a closing bracket: the capture runs to the last
    closing bracket of the text. *)
Definition transitions_block_at (s : string) : option string :=
  r ← after_lit ":process/transitions" s;
  '(_, r) ← plus1 is_space r;
  r ← after_lit "[" r;
  up_to_last "]" r.

Definition transitions_block (s : string) : option string :=
  find_first transitions_block_at s.

(** [/:transition\/from\s+(#{[^}]+}|:[^\s\n]+)/], group 1. *)
Definition from_at (s : string) : option string :=
  r ← after_lit ":transition/from" s;
  '(_, r) ← plus1 is_space r;
  match enclosed_at "#{" "}" r with
  | Some inside => Some ("#{" +:+ inside +:+ "}")
  | None =>
      r ← after_lit ":" r;
      '(cap, _) ← plus1 (λ c, negb (is_space c)) r;
      Some (":" +:+ cap)
  end.

Definition from (s : string) : option string := find_first from_at s.

(** [/:config\s+({[^}]+})/], group 1. *)
Definition config_at (s : string) : option string :=
  inside ← enclosed_after_at ":config" "{" "}" s;
  Some ("{" +:+ inside +:+ "}").

Definition config (s : string) : option string := find_first config_at s.

(** The lookahead [\s*lit]. *)
Definition ahead (lit : string) (s : string) : bool :=
  startsWith lit (trimStart s).

(** [new RegExp(key + "\\s*\\[")]: what follows the leftmost match. *)
Definition open_bracket_at (key : string) (s : string) : option string :=
  r ← after_lit key s;
  after_lit "[" (trimStart r).

Definition open_bracket (key : string) (s : string) : option string :=
  find_first (open_bracket_at key) s.

End Re.

(** ** Parsed process data ([edn-parser.ts], the exported interfaces) *)

Inductive Result (A : Type) : Type :=
  | Ok (a : A)
  | Throw (message : string).
Arguments Ok {A} a.
Arguments Throw {A} message.

(** ['transition/from': string | string[]]. *)
Inductive FromStates : Type :=
  | FromOne (state : string)
  | FromMany (states : list string).

Record TransitionDefinition : Type := {
  transition_id : string;
  transition_from : FromStates;
  transition_to : string;
  transition_actor : string;
  transition_actions : option (list string);
  transition_notifications : option (list string)
}.

Record V3Action : Type := {
  action_name : string;
  action_config_type : option string
}.

(** The fields [at] and [privileged?] are declared and never read or written. *)
Record V3TransitionDefinition : Type := {
  v3_name : string;
  v3_actor : option string;
  v3_actions : option (list V3Action);
  v3_to : option string;
  v3_from : option string
}.

Record V3NotificationDefinition : Type := {
  notification_name : string;
  notification_on : option string;
  notification_to : option string;
  notification_template : option string
}.

Record TransactionProcess : Type := {
  process_id : option string;
  process_states : option (list string);
  process_transitions : option (list TransitionDefinition);
  format : option string;
  transitions : option (list V3TransitionDefinition);
  notifications : option (list V3NotificationDefinition)
}.

(** ** The reader ([edn-parser.ts]) *)

Module Parser.
Import Str.

(** [content.split(/\s+/).filter(s => s.trim() && s.startsWith(':'))
    .map(s => s.substring(1).replace(/^ns/, ''))]. *)
Definition keywordNames (ns : string) (content : string) : list string :=
  List.map (λ s, strip_prefix ns (substring1 s))
    (List.filter (λ s, truthy (trim s) && startsWith ":" s) (split_ws content)).

Definition parseTransition (transitionText : string) : Result TransitionDefinition :=
  match Re.keyword ":transition/id" Re.stop_ws transitionText with
  | None => Throw "Missing transition ID"
  | Some id =>
  match Re.from transitionText with
  | None => Throw "Missing transition from"
  | Some fromContent =>
  let from :=
    if startsWith "#{" fromContent
    then FromMany (keywordNames EmptyString (slice_2_minus1 fromContent))
    else FromOne (substring1 fromContent) in
  match Re.keyword ":transition/to" Re.stop_ws transitionText with
  | None => Throw "Missing transition to"
  | Some to =>
  match Re.keyword ":transition/actor" Re.stop_ws transitionText with
  | None => Throw "Missing transition actor"
  | Some actor =>
      Ok {| transition_id := id;
            transition_from := from;
            transition_to := to;
            transition_actor := actor;
            transition_actions :=
              keywordNames "action/" <$>
                Re.enclosed_after ":transition/actions" "[" "]" transitionText;
            transition_notifications :=
              keywordNames "notification/" <$>
                Re.enclosed_after ":transition/notifications" "[" "]" transitionText |}
  end end end end.

(** The pieces of [transitionsContent] that the loop hands to
    [parseTransition]: cut before each [{:transition/id], blank pieces and
    pieces without the key left out. *)
Definition transitionChunks (transitionsContent : string) : list string :=
  List.filter (λ t, truthy (trim t) && includes ":transition/id" t)
    (split_lookahead (Re.ahead "{:transition/id") transitionsContent).

(** The [try] of the loop body: a piece on which [parseTransition] throws
    is skipped (the [catch] only warns), the loop goes on with the next. *)
Definition parseChunks (chunks : list string) : list TransitionDefinition :=
  flat_map (λ t, match parseTransition t with Ok d => [d] | Throw _ => [] end) chunks.

Definition parseTransitions (transitionsContent : string) : list TransitionDefinition :=
  parseChunks (transitionChunks transitionsContent).

Definition parseV2Format (cleanEdn : string) : Result TransactionProcess :=
  match Re.keyword ":process/id" Re.stop_ws cleanEdn with
  | None => Throw "Missing or invalid :process/id"
  | Some processId =>
  match Re.enclosed_after ":process/states" "#{" "}" cleanEdn with
  | None => Throw "Missing or invalid :process/states"
  | Some statesContent =>
  match Re.transitions_block cleanEdn with
  | None => Throw "Missing or invalid :process/transitions"
  | Some transitionsContent =>
      Ok {| process_id := Some processId;
            process_states := Some (keywordNames EmptyString statesContent);
            process_transitions := Some (parseTransitions transitionsContent);
            format := None; transitions := None; notifications := None |}
  end end end.

(** The [while] loop of [extractBracketedContent] over the text behind the
    opening bracket; [k] is [currentIndex - startIndex]. *)
Fixpoint bracket_scan (rest : string) (k : nat) (bracketCount : Z) : nat * Z :=
  match rest with
  | EmptyString => (k, bracketCount)
  | String c rest' =>
      if 0 <? bracketCount then
        bracket_scan rest' (S k)
          (if Ascii.eqb c "[" then bracketCount + 1
           else if Ascii.eqb c "]" then bracketCount - 1
           else bracketCount)
      else (k, bracketCount)
  end.

Definition extractBracketedContent (ednString key : string) : option string :=
  match Re.open_bracket key ednString with
  | None => None
  | Some rest =>
      let '(k, bracketCount) := bracket_scan rest 0 1 in
      if bracketCount =? 0 then Some (take (k - 1) rest) else None
  end.

(** [if (content)] on a [string | null]: the empty string counts as absent. *)
Definition if_truthy (content : option string) : option string :=
  match content with
  | Some s => if truthy s then Some s else None
  | None => None
  end.

(** The brace-counting loop shared by [parseV3Transitions] and
    [parseV3Actions]: [start] is [transitionStart] ([None] for [-1]),
    [on_map] is what the loop body pushes for one complete [{...}]. *)
Fixpoint scan_maps {A} (on_map : string -> list A) (whole rest : string)
    (i : nat) (bracketCount : Z) (start : option nat) : list A :=
  match rest with
  | EmptyString => []
  | String c rest' =>
      if Ascii.eqb c "{" then
        scan_maps on_map whole rest' (S i) (bracketCount + 1)
          (if bracketCount =? 0 then Some i else start)
      else if Ascii.eqb c "}" then
        match start with
        | Some st =>
            if bracketCount - 1 =? 0
            then on_map (slice st (S i) whole)
                   ++ scan_maps on_map whole rest' (S i) (bracketCount - 1) None
            else scan_maps on_map whole rest' (S i) (bracketCount - 1) start
        | None => scan_maps on_map whole rest' (S i) (bracketCount - 1) None
        end
      else scan_maps on_map whole rest' (S i) bracketCount start
  end.

Definition parseV3Action (actionText : string) : list V3Action :=
  match Re.keyword ":name" Re.stop_ws_comma_brace actionText with
  | Some name =>
      [ {| action_name := strip_prefix "action/" name;
           action_config_type :=
             configText ← Re.config actionText;
             Re.keyword ":type" Re.stop_ws_comma_brace configText |} ]
  | None => []
  end.

Definition parseV3Actions (actionsContent : string) : list V3Action :=
  scan_maps parseV3Action actionsContent actionsContent 0 0 None.

Definition parseV3Transition (transitionText : string) : Result V3TransitionDefinition :=
  match Re.keyword ":name" Re.stop_ws_comma transitionText with
  | None => Throw "Missing transition name"
  | Some name =>
      Ok {| v3_name := name;
            v3_actor :=
              strip_prefix "actor.role/" <$>
                Re.keyword ":actor" Re.stop_ws_comma transitionText;
            v3_to :=
              strip_prefix "state/" <$>
                Re.keyword ":to" Re.stop_ws_comma_brace transitionText;
            v3_from :=
              strip_prefix "state/" <$>
                Re.keyword ":from" Re.stop_ws_comma_brace transitionText;
            v3_actions :=
              parseV3Actions <$>
                if_truthy (extractBracketedContent transitionText ":actions") |}
  end.

Definition parseV3Transitions (transitionsContent : string) : list V3TransitionDefinition :=
  scan_maps
    (λ t, match parseV3Transition t with Ok d => [d] | Throw _ => [] end)
    transitionsContent transitionsContent 0 0 None.

Definition parseV3Notification (notificationText : string) : Result V3NotificationDefinition :=
  match Re.keyword ":name" Re.stop_ws_comma notificationText with
  | None => Throw "Missing notification name"
  | Some name =>
      Ok {| notification_name := name;
            notification_on := Re.keyword ":on" Re.stop_ws_comma notificationText;
            notification_to := Re.keyword ":to" Re.stop_ws_comma notificationText;
            notification_template :=
              Re.keyword ":template" Re.stop_ws_comma_brace notificationText |}
  end.

Definition parseV3Notifications (notificationsContent : string)
  : list V3NotificationDefinition :=
  flat_map (λ t, match parseV3Notification t with Ok d => [d] | Throw _ => [] end)
    (List.filter (λ t, truthy (trim t) && includes ":name" t)
       (split_lookahead (Re.ahead "{:name") notificationsContent)).

Definition parseV3Format (cleanEdn : string) : Result TransactionProcess :=
  match if_truthy (extractBracketedContent cleanEdn ":transitions") with
  | None => Throw "Missing or invalid :transitions"
  | Some transitionsMatch =>
      Ok {| process_id := None; process_states := None; process_transitions := None;
            format := Some "v3";
            transitions := Some (parseV3Transitions transitionsMatch);
            notifications :=
              Some match if_truthy (extractBracketedContent cleanEdn ":notifications") with
                   | Some notificationsMatch => parseV3Notifications notificationsMatch
                   | None => []
                   end |}
  end.

Definition isV3Format (cleanEdn : string) : bool := includes ":format :v3" cleanEdn.

Definition isV2Format (cleanEdn : string) : bool :=
  includes ":process/id" cleanEdn && includes ":process/states" cleanEdn.

(** Everything thrown inside the [try] is an [Error], which the [catch]
    throws again unchanged. *)
Definition parseEdn (ednString : string) : Result TransactionProcess :=
  let cleanEdn := strip_comments ednString in
  if isV3Format cleanEdn then parseV3Format cleanEdn
  else if isV2Format cleanEdn then parseV2Format cleanEdn
  else Throw "Unrecognized EDN format. Please provide a valid Sharetribe transaction process.".

End Parser.

(** ** JavaScript numbers of the layout *)

Inductive JsNum : Type :=
  | Int (z : Z)
  | NegInfinity.

Module Num.

Definition add (a b : JsNum) : JsNum :=
  match a, b with
  | Int x, Int y => Int (x + y)
  | _, _ => NegInfinity
  end.

(** [a * k] for a positive constant [k]. *)
Definition times (a : JsNum) (k : positive) : JsNum :=
  match a with
  | Int x => Int (x * Z.pos k)
  | NegInfinity => NegInfinity
  end.

Definition max (a b : JsNum) : JsNum :=
  match a, b with
  | Int x, Int y => Int (Z.max x y)
  | NegInfinity, _ => b
  | _, NegInfinity => a
  end.

(** [Math.max(...values)]; [-Infinity] for no argument. *)
Definition Math_max (values : list JsNum) : JsNum :=
  fold_right max NegInfinity values.

(** [a === b]. *)
Definition eqb (a b : JsNum) : bool :=
  match a, b with
  | Int x, Int y => x =? y
  | NegInfinity, NegInfinity => true
  | _, _ => false
  end.

(** Only [0] is falsy. *)
Definition truthy (a : JsNum) : bool :=
  match a with
  | Int x => negb (x =? 0)
  | NegInfinity => true
  end.

Definition is_finite (a : JsNum) : bool :=
  match a with Int _ => true | NegInfinity => false end.

End Num.

(** ** The graph ([graph-generator.ts]) *)

(** What a property read on the object literal [ACTOR_COLORS] can give: one
    of its own strings, or a member that the literal inherits from
    [Object.prototype] (a function or an object, never a string). *)
Inductive JsValue : Type :=
  | JsString (s : string)
  | JsInherited (key : string).

(** The constant presentation fields of a node and of an edge ([type],
    [style] apart from the colours, [labelStyle], ...) are left out. *)
Record Node : Type := {
  node_id : string;
  node_position : JsNum * JsNum;
  node_label : string;
  node_originalId : string;
  node_fontStyle : string
}.

Record EdgeData : Type := {
  data_transitionId : string;
  data_actor : string;
  data_actions : list string;
  data_notifications : list string;
  data_from : string;
  data_to : string
}.

Record Edge : Type := {
  edge_id : string;
  edge_source : string;
  edge_target : string;
  edge_label : string;
  edge_stroke : JsValue;
  edge_markerEnd_color : JsValue;
  edge_data : EdgeData
}.

Record GraphData : Type := {
  nodes : list Node;
  edges : list Edge
}.

Module Graph.
Import Str.

Definition ACTOR_COLORS : list (string * string) :=
  [ ("customer", "#F97316"); ("provider", "#EC4899"); ("operator", "#10B981");
    ("system", "#6B7280"); ("default", "#6B7280") ].

Definition Object_prototype : list string :=
  [ "constructor"; "__defineGetter__"; "__defineSetter__"; "hasOwnProperty";
    "__lookupGetter__"; "__lookupSetter__"; "isPrototypeOf";
    "propertyIsEnumerable"; "toString"; "valueOf"; "__proto__";
    "toLocaleString" ].

Fixpoint own (key : string) (object : list (string * string)) : option string :=
  match object with
  | [] => None
  | (k, v) :: object' => if String.eqb k key then Some v else own key object'
  end.

(** [ACTOR_COLORS[key]]: an own property first, then the prototype;
    [None] is [undefined]. *)
Definition ACTOR_COLORS_get (key : string) : option JsValue :=
  match own key ACTOR_COLORS with
  | Some v => Some (JsString v)
  | None =>
      if existsb (String.eqb key) Object_prototype then Some (JsInherited key)
      else None
  end.

Definition value_truthy (v : JsValue) : bool :=
  match v with
  | JsString s => truthy s
  | JsInherited _ => true
  end.

Definition getActorColor (actor : string) : JsValue :=
  let normalizedActor := strip_prefix "actor.role/" (toLowerCase actor) in
  match ACTOR_COLORS_get normalizedActor with
  | Some v => if value_truthy v then v else JsString "#6B7280"
  | None => JsString "#6B7280"
  end.

Definition formatStateLabel (state : string) : string := state.

Definition formatTransitionLabel (transition : TransitionDefinition) : string :=
  toLowerCase (dash_before_upper (strip_prefix "transition/" (transition_id transition))).

Definition formatV3TransitionLabel (transition : V3TransitionDefinition) : string :=
  toLowerCase (dash_before_upper (strip_prefix "transition/" (v3_name transition))).

(** [o || fallback] on an optional string. *)
Definition or_else (o : option string) (fallback : string) : string :=
  match o with
  | Some s => if truthy s then s else fallback
  | None => fallback
  end.

(** The truth value of an optional string. *)
Definition present (o : option string) : bool :=
  match o with
  | Some s => truthy s
  | None => false
  end.

(** [set.add(s)] on a [Set] kept in insertion order. *)
Definition set_add (s : string) (set : list string) : list string :=
  if bool_decide (s ∈ set) then set else set ++ [s].

(** [array.indexOf(s)]. *)
Fixpoint indexOf (s : string) (array : list string) : Z :=
  match array with
  | [] => -1
  | a :: array' =>
      if String.eqb a s then 0
      else let i := indexOf s array' in if i <? 0 then -1 else i + 1
  end.

(** *** The level loop shared by the two layout functions *)

Section Levels.

(** [outgoing s]: the [to] of each transition leaving [s] on which the
    body of [outgoingTransitions.forEach] can act, in order. *)
Variable outgoing : string -> list string.

(** [levels.get(s) || 0]. *)
Definition level_or_0 (levels : gmap string JsNum) (s : string) : JsNum :=
  match levels !! s with
  | Some v => if Num.truthy v then v else Int 0
  | None => Int 0
  end.

(** The body of [outgoingTransitions.forEach]. *)
Definition discover (currentLevel : JsNum)
    (st : list string * gmap string JsNum) (to : string)
  : list string * gmap string JsNum :=
  match st.2 !! to with
  | Some _ => st
  | None => (st.1 ++ [to], <[to := Num.add currentLevel (Int 1)]> st.2)
  end.

(** The [while (queue.length > 0)] loop, run for at most [fuel] turns;
    [None] when the queue is not empty by then. *)
Fixpoint bfs (fuel : nat) (queue : list string) (visited : gset string)
    (levels : gmap string JsNum) : option (gmap string JsNum) :=
  match queue with
  | [] => Some levels
  | currentState :: queue' =>
      match fuel with
      | O => None
      | S fuel' =>
          if decide (currentState ∈ visited) then bfs fuel' queue' visited levels
          else
            let st := fold_left (discover (level_or_0 levels currentState))
                        (outgoing currentState) (queue', levels) in
            bfs fuel' st.1 ({[currentState]} ∪ visited) st.2
      end
  end.

End Levels.

Definition level_values (levels : gmap string JsNum) : list JsNum :=
  (map_to_list levels).*2.

(** [if (!levels.has(state)) levels.set(state, Math.max(...) + 1)]. *)
Definition place_at_bottom (levels : gmap string JsNum) (state : string)
  : gmap string JsNum :=
  match levels !! state with
  | Some _ => levels
  | None => <[state := Num.add (Num.Math_max (level_values levels)) (Int 1)]> levels
  end.

(** [levels.get(s) === level]. *)
Definition at_level (levels : gmap string JsNum) (level : JsNum) (s : string) : bool :=
  match levels !! s with
  | Some v => Num.eqb v level
  | None => false
  end.

(** The tail shared by the two position functions, on the level map
    that the loop left: [level] is [levels.get(state) || 0] once the state
    is placed, [statesAtLevel] the states of that level. *)
Definition level_of (levels : gmap string JsNum) (state : string) : JsNum :=
  level_or_0 (place_at_bottom levels state) state.

Definition statesAtLevel (levels : gmap string JsNum) (state : string)
    (states : list string) : list string :=
  List.filter (at_level (place_at_bottom levels state) (level_of levels state)) states.

(** *** Modern format *)

Definition from_or_initial (t : V3TransitionDefinition) : string :=
  or_else (v3_from t) "initial".

(** The [to] of the transitions that leave [currentState] and have one. *)
Definition outgoingV3 (transitions : list V3TransitionDefinition)
    (currentState : string) : list string :=
  omap (λ t, if String.eqb (from_or_initial t) currentState
             then Parser.if_truthy (v3_to t) else None) transitions.

(** The level map after the loop. Every turn takes a state off the queue
    and every push gives a level to a [to] that had none, so the loop ends
    within [1 + length transitions] turns ([levelsV3_total]). *)
Definition levelsV3 (transitions : list V3TransitionDefinition)
  : option (gmap string JsNum) :=
  bfs (outgoingV3 transitions) (S (List.length transitions))
    ["initial"] ∅ {["initial" := Int 0]}.

Definition getImprovedTreePosition (state : string)
    (transitions : list V3TransitionDefinition) (states : list string)
  : option (JsNum * JsNum) :=
  levels ← levelsV3 transitions;
  let level := level_of levels state in
  let statesAtLevel := statesAtLevel levels state states in
  let positionInLevel := indexOf state statesAtLevel in
  let totalWidth := (Z.of_nat (List.length statesAtLevel) - 1) * 280 in
  let baseX := 400 - totalWidth / 2 in
  Some (Int (positionInLevel * 280 + baseX),
        Num.add (Num.times level 180) (Int 100)).

(** The body of [transitions.forEach] that fills [stateSet]. *)
Definition add_endpoints (stateSet : list string) (t : V3TransitionDefinition)
  : list string :=
  let stateSet :=
    match Parser.if_truthy (v3_from t) with
    | Some f => set_add f stateSet
    | None => stateSet
    end in
  match Parser.if_truthy (v3_to t) with
  | Some to => set_add to stateSet
  | None => stateSet
  end.

Definition statesV3 (transitions : list V3TransitionDefinition) : list string :=
  let initialTransitions := List.filter (λ t, negb (present (v3_from t))) transitions in
  fold_left add_endpoints transitions
    (match initialTransitions with [] => [] | _ :: _ => set_add "initial" [] end).

Definition make_node (state : string) (position : JsNum * JsNum) : Node :=
  {| node_id := state;
     node_position := position;
     node_label := formatStateLabel state;
     node_originalId := state;
     node_fontStyle := if String.eqb state "initial" then "italic" else "normal" |}.

Definition edgesV3_of (transitionIndex : nat) (transition : V3TransitionDefinition)
  : list Edge :=
  let fromState := from_or_initial transition in
  match Parser.if_truthy (v3_to transition) with
  | Some toState =>
      [ {| edge_id := v3_name transition +:+ "-" +:+ pretty transitionIndex;
           edge_source := fromState;
           edge_target := toState;
           edge_label := formatV3TransitionLabel transition;
           edge_stroke := getActorColor (or_else (v3_actor transition) "system");
           edge_markerEnd_color := getActorColor (or_else (v3_actor transition) "system");
           edge_data :=
             {| data_transitionId := v3_name transition;
                data_actor := or_else (v3_actor transition) "system";
                data_actions :=
                  match v3_actions transition with
                  | Some actions => List.map action_name actions
                  | None => []
                  end;
                data_notifications := [];
                data_from := fromState;
                data_to := toState |} |} ]
  | None => []
  end.

Definition generateV3GraphData (processData : TransactionProcess) : option GraphData :=
  let transitions := default [] (transitions processData) in
  let states := statesV3 transitions in
  nodes ← mapM (λ state, make_node state <$> getImprovedTreePosition state transitions states)
             states;
  Some {| nodes := nodes;
          edges := mjoin (imap edgesV3_of transitions) |}.

(** *** Legacy format *)

(** [Array.isArray(from) ? from : [from]]. *)
Definition fromStates (t : TransitionDefinition) : list string :=
  match transition_from t with
  | FromOne s => [s]
  | FromMany l => l
  end.

Definition outgoingV2 (transitions : list TransitionDefinition)
    (currentState : string) : list string :=
  List.map transition_to
    (List.filter (λ t, existsb (String.eqb currentState) (fromStates t)) transitions).

Definition rootStates (transitions : list TransitionDefinition) (states : list string)
  : list string :=
  List.filter (λ s, negb (existsb (String.eqb s) (List.map transition_to transitions)))
    states.

(** The level map after the loop, which ends within
    [length rootStates + length transitions] turns ([levelsV2_total]). *)
Definition levelsV2 (transitions : list TransitionDefinition) (states : list string)
  : option (gmap string JsNum) :=
  let roots := rootStates transitions states in
  bfs (outgoingV2 transitions) (List.length roots + List.length transitions)
    roots ∅ (fold_left (λ levels rootState, <[rootState := Int 0]> levels) roots ∅).

Definition getVerticalTreePositionV2 (state : string)
    (transitions : list TransitionDefinition) (states : list string)
  : option (JsNum * JsNum) :=
  levels ← levelsV2 transitions states;
  let level := level_of levels state in
  let statesAtLevel := statesAtLevel levels state states in
  let positionInLevel := indexOf state statesAtLevel in
  Some (Int (positionInLevel * 250 + 100),
        Num.add (Num.times level 150) (Int 50)).

Definition edgesV2_of (transitionIndex : nat) (transition : TransitionDefinition)
  : list Edge :=
  imap
    (λ fromIndex fromState,
       {| edge_id := transition_id transition +:+ "-" +:+ pretty fromIndex;
          edge_source := fromState;
          edge_target := transition_to transition;
          edge_label := formatTransitionLabel transition;
          edge_stroke := getActorColor (or_else (Some (transition_actor transition)) "system");
          edge_markerEnd_color :=
            getActorColor (or_else (Some (transition_actor transition)) "system");
          edge_data :=
            {| data_transitionId := transition_id transition;
               data_actor := transition_actor transition;
               data_actions := default [] (transition_actions transition);
               data_notifications := default [] (transition_notifications transition);
               data_from := fromState;
               data_to := transition_to transition |} |})
    (fromStates transition).

Definition generateV2GraphData (processData : TransactionProcess) : option GraphData :=
  let states := default [] (process_states processData) in
  let transitions := default [] (process_transitions processData) in
  nodes ← mapM (λ state, make_node state <$> getVerticalTreePositionV2 state transitions states)
             states;
  Some {| nodes := nodes;
          edges := mjoin (imap edgesV2_of transitions) |}.

Definition generateGraphData (processData : TransactionProcess) : option GraphData :=
  match format processData with
  | Some f => if String.eqb f "v3" then generateV3GraphData processData
              else generateV2GraphData processData
  | None => generateV2GraphData processData
  end.

End Graph.

(** [handleVisualize] of the home page: read the text, then build the graph.
    The inner [option] is [None] only if a level loop were cut short. *)
Definition visualize (ednInput : string) : Result (option GraphData) :=
  match Parser.parseEdn ednInput with
  | Ok parsedData => Ok (Graph.generateGraphData parsedData)
  | Throw message => Throw message
  end.


(** ** Measures and invariants of the level loop *)

(** The states of [l] that have no level yet. *)
Definition unleveled (levels : gmap string JsNum) (l : list string) : nat :=
  List.length (List.filter (λ s, bool_decide (levels !! s = None)) l).

(** A level map whose levels are all integers from [0] on. *)
Definition finite_levels (levels : gmap string JsNum) : Prop :=
  map_Forall (λ _ v, ∃ n, v = Int n ∧ 0 ≤ n) levels.

(** ** The design document's formulas *)




(** ** Example documents *)

Definition nl : string := String (ascii_of_N 10) EmptyString.
Definition dquote : string := String (ascii_of_N 34) EmptyString.



Definition transitionTwo : string :=
  "{:transition/id :transition/two" +:+ nl +:+
  "   :transition/from :a" +:+ nl +:+
  "   :transition/to :b" +:+ nl +:+
  "   :transition/actor :actor.role/provider }".

(** The text between the brackets of [:process/transitions]: each
    transition on a line of its own. *)
Definition legacyTransitions (transitions : list string) : string :=
  fold_right (λ t rest, nl +:+ "  " +:+ t +:+ rest) EmptyString transitions.

Definition legacyDocument (states : string) (transitions : list string) : string :=
  "{:process/id :demo" +:+ nl +:+
  " :process/states #{" +:+ states +:+ "}" +:+ nl +:+
  " :process/transitions" +:+ nl +:+
  " [" +:+ legacyTransitions transitions +:+ "]}".



(** The declared states leave out [b], the target of the transition. *)
Definition docUndeclared : string := legacyDocument ":a" [transitionTwo].

(** The root map is never closed. *)
Definition docUnclosed : string :=
  "{:format :v3 :transitions [{:name :transition/a :to :state/b}]".

(** The marker of the modern format inside a string literal, next to the
    keys of the legacy format. *)
Definition docBoth : string :=
  "{:process/id :p :process/states #{:a} :note " +:+ dquote +:+ ":format :v3" +:+ dquote
  +:+ " :transitions [{:name :transition/a :to :state/b}]}".

(** Two modern entry transitions, to two states. *)
Definition entryProcess : TransactionProcess :=
  {| process_id := None; process_states := None; process_transitions := None;
     format := Some "v3";
     transitions :=
       Some [ {| v3_name := "transition/inquire"; v3_actor := Some "customer";
                 v3_actions := None; v3_to := Some "inquiry"; v3_from := None |};
              {| v3_name := "transition/request"; v3_actor := Some "customer";
                 v3_actions := None; v3_to := Some "pending"; v3_from := None |} ];
     notifications := Some [] |}.

(** A legacy transition from three states to one. *)
Definition fanOut : TransitionDefinition :=
  {| transition_id := "transition/cancel";
     transition_from := FromMany ["pending"; "accepted"; "paid"];
     transition_to := "cancelled";
     transition_actor := "actor.role/operator";
     transition_actions := Some ["refund"];
     transition_notifications := Some ["cancelled"] |}.


Definition transitionBack : string :=
  "{:transition/id :transition/back" +:+ nl +:+
  "   :transition/from :b" +:+ nl +:+
  "   :transition/to :a" +:+ nl +:+
  "   :transition/actor :actor.role/customer }".

(** The legacy cycle [a -> b], [b -> a]: every state is a target. *)
Definition docCycle : string := legacyDocument ":a :b" [transitionTwo; transitionBack].

(** A modern transition whose actor is named [constructor]. *)
Definition docConstructor : string :=
  "{:format :v3 :transitions [{:name :transition/a :actor :actor.role/constructor :to :state/b}]}".

(** ** The home page ([pages/home.tsx]) *)

(** The state of the component [Home] is a record of its [useState] cells; a
    handler is a function from the state of the render that made it to the
    state after its [set...] calls. *)
Module Home.

(** [DEFAULT_V3_EDN], the sample that the page offers. *)
Definition DEFAULT_V3_EDN : string :=
  "{:format :v3," +:+ nl +:+
  " :transitions" +:+ nl +:+
  " [{:name :transition/inquire," +:+ nl +:+
  "   :actor :actor.role/customer," +:+ nl +:+
  "   :actions [{:name :action/update-protected-data}]," +:+ nl +:+
  "   :to :state/inquiry}" +:+ nl +:+
  "  {:name :transition/request-payment," +:+ nl +:+
  "   :actor :actor.role/customer," +:+ nl +:+
  "   :actions" +:+ nl +:+
  "   [{:name :action/update-protected-data}" +:+ nl +:+
  "    {:name :action/create-pending-booking, :config {:type :time}}" +:+ nl +:+
  "    {:name :action/privileged-set-line-items}" +:+ nl +:+
  "    {:name :action/stripe-create-payment-intent}]," +:+ nl +:+
  "   :to :state/pending-payment," +:+ nl +:+
  "   :privileged? true}" +:+ nl +:+
  "  {:name :transition/request-payment-after-inquiry," +:+ nl +:+
  "   :actor :actor.role/customer," +:+ nl +:+
  "   :actions" +:+ nl +:+
  "   [{:name :action/update-protected-data}" +:+ nl +:+
  "    {:name :action/create-pending-booking, :config {:type :time}}" +:+ nl +:+
  "    {:name :action/privileged-set-line-items}" +:+ nl +:+
  "    {:name :action/stripe-create-payment-intent}]," +:+ nl +:+
  "   :from :state/inquiry," +:+ nl +:+
  "   :to :state/pending-payment," +:+ nl +:+
  "   :privileged? true}" +:+ nl +:+
  "  {:name :transition/expire-payment," +:+ nl +:+
  "   :at" +:+ nl +:+
  "   {:fn/plus" +:+ nl +:+
  "    [{:fn/timepoint [:time/first-entered-state :state/pending-payment]}" +:+ nl +:+
  "     {:fn/period [" +:+ dquote +:+ "PT15M" +:+ dquote +:+ "]}]}," +:+ nl +:+
  "   :actions" +:+ nl +:+
  "   [{:name :action/calculate-full-refund}" +:+ nl +:+
  "    {:name :action/stripe-refund-payment}" +:+ nl +:+
  "    {:name :action/decline-booking}]," +:+ nl +:+
  "   :from :state/pending-payment," +:+ nl +:+
  "   :to :state/payment-expired}" +:+ nl +:+
  "  {:name :transition/confirm-payment," +:+ nl +:+
  "   :actor :actor.role/customer," +:+ nl +:+
  "   :actions [{:name :action/stripe-confirm-payment-intent}]," +:+ nl +:+
  "   :from :state/pending-payment," +:+ nl +:+
  "   :to :state/preauthorized}" +:+ nl +:+
  "  {:name :transition/accept," +:+ nl +:+
  "   :actor :actor.role/provider," +:+ nl +:+
  "   :actions" +:+ nl +:+
  "   [{:name :action/accept-booking}" +:+ nl +:+
  "    {:name :action/stripe-capture-payment-intent}]," +:+ nl +:+
  "   :from :state/preauthorized," +:+ nl +:+
  "   :to :state/accepted}" +:+ nl +:+
  "  {:name :transition/decline," +:+ nl +:+
  "   :actor :actor.role/provider," +:+ nl +:+
  "   :actions" +:+ nl +:+
  "   [{:name :action/calculate-full-refund}" +:+ nl +:+
  "    {:name :action/stripe-refund-payment}" +:+ nl +:+
  "    {:name :action/decline-booking}]," +:+ nl +:+
  "   :from :state/preauthorized," +:+ nl +:+
  "   :to :state/declined}]}".

Record StoredFile := {
  file_id : string;
  file_name : string;
  file_content : string;
  file_createdAt : string;
  file_updatedAt : string;
}.

(** [{type: 'node' | 'edge', data}]: the data are those of the element. *)
Inductive SelectedElement :=
  | SelectedNode (node : Node)
  | SelectedEdge (edge : Edge).

Record State := {
  ednInput : string;
  graphData : option GraphData;
  error : string;
  selectedElement : option SelectedElement;
  isFullscreen : bool;
  showDetails : bool;
  storedFiles : list StoredFile;
  selectedFileId : string;
  isEditingFileName : string;
  newFileName : string;
  showFilesDialog : bool;
  showInfoModal : bool;
}.

(** The state of the first render. *)
Definition initial : State :=
  {| ednInput := EmptyString; graphData := None; error := EmptyString;
     selectedElement := None; isFullscreen := false; showDetails := false;
     storedFiles := []; selectedFileId := EmptyString;
     isEditingFileName := EmptyString; newFileName := EmptyString;
     showFilesDialog := false; showInfoModal := false |}.

Definition setEdnInput (v : string) (st : State) : State :=
  {| ednInput := v; graphData := graphData st; error := error st;
     selectedElement := selectedElement st; isFullscreen := isFullscreen st;
     showDetails := showDetails st; storedFiles := storedFiles st;
     selectedFileId := selectedFileId st; isEditingFileName := isEditingFileName st;
     newFileName := newFileName st; showFilesDialog := showFilesDialog st;
     showInfoModal := showInfoModal st |}.

Definition setGraphData (v : option GraphData) (st : State) : State :=
  {| ednInput := ednInput st; graphData := v; error := error st;
     selectedElement := selectedElement st; isFullscreen := isFullscreen st;
     showDetails := showDetails st; storedFiles := storedFiles st;
     selectedFileId := selectedFileId st; isEditingFileName := isEditingFileName st;
     newFileName := newFileName st; showFilesDialog := showFilesDialog st;
     showInfoModal := showInfoModal st |}.

Definition setError (v : string) (st : State) : State :=
  {| ednInput := ednInput st; graphData := graphData st; error := v;
     selectedElement := selectedElement st; isFullscreen := isFullscreen st;
     showDetails := showDetails st; storedFiles := storedFiles st;
     selectedFileId := selectedFileId st; isEditingFileName := isEditingFileName st;
     newFileName := newFileName st; showFilesDialog := showFilesDialog st;
     showInfoModal := showInfoModal st |}.

Definition setSelectedElement (v : option SelectedElement) (st : State) : State :=
  {| ednInput := ednInput st; graphData := graphData st; error := error st;
     selectedElement := v; isFullscreen := isFullscreen st;
     showDetails := showDetails st; storedFiles := storedFiles st;
     selectedFileId := selectedFileId st; isEditingFileName := isEditingFileName st;
     newFileName := newFileName st; showFilesDialog := showFilesDialog st;
     showInfoModal := showInfoModal st |}.

Definition setShowDetails (v : bool) (st : State) : State :=
  {| ednInput := ednInput st; graphData := graphData st; error := error st;
     selectedElement := selectedElement st; isFullscreen := isFullscreen st;
     showDetails := v; storedFiles := storedFiles st;
     selectedFileId := selectedFileId st; isEditingFileName := isEditingFileName st;
     newFileName := newFileName st; showFilesDialog := showFilesDialog st;
     showInfoModal := showInfoModal st |}.

Definition setIsFullscreen (v : bool) (st : State) : State :=
  {| ednInput := ednInput st; graphData := graphData st; error := error st;
     selectedElement := selectedElement st; isFullscreen := v;
     showDetails := showDetails st; storedFiles := storedFiles st;
     selectedFileId := selectedFileId st; isEditingFileName := isEditingFileName st;
     newFileName := newFileName st; showFilesDialog := showFilesDialog st;
     showInfoModal := showInfoModal st |}.

Definition setShowInfoModal (v : bool) (st : State) : State :=
  {| ednInput := ednInput st; graphData := graphData st; error := error st;
     selectedElement := selectedElement st; isFullscreen := isFullscreen st;
     showDetails := showDetails st; storedFiles := storedFiles st;
     selectedFileId := selectedFileId st; isEditingFileName := isEditingFileName st;
     newFileName := newFileName st; showFilesDialog := showFilesDialog st;
     showInfoModal := v |}.

(** [setStoredFiles(prev => ...)]. *)
Definition setStoredFiles (update : list StoredFile -> list StoredFile) (st : State)
  : State :=
  {| ednInput := ednInput st; graphData := graphData st; error := error st;
     selectedElement := selectedElement st; isFullscreen := isFullscreen st;
     showDetails := showDetails st; storedFiles := update (storedFiles st);
     selectedFileId := selectedFileId st; isEditingFileName := isEditingFileName st;
     newFileName := newFileName st; showFilesDialog := showFilesDialog st;
     showInfoModal := showInfoModal st |}.

Definition setSelectedFileId (v : string) (st : State) : State :=
  {| ednInput := ednInput st; graphData := graphData st; error := error st;
     selectedElement := selectedElement st; isFullscreen := isFullscreen st;
     showDetails := showDetails st; storedFiles := storedFiles st;
     selectedFileId := v; isEditingFileName := isEditingFileName st;
     newFileName := newFileName st; showFilesDialog := showFilesDialog st;
     showInfoModal := showInfoModal st |}.

Definition setIsEditingFileName (v : string) (st : State) : State :=
  {| ednInput := ednInput st; graphData := graphData st; error := error st;
     selectedElement := selectedElement st; isFullscreen := isFullscreen st;
     showDetails := showDetails st; storedFiles := storedFiles st;
     selectedFileId := selectedFileId st; isEditingFileName := v;
     newFileName := newFileName st; showFilesDialog := showFilesDialog st;
     showInfoModal := showInfoModal st |}.

Definition setNewFileName (v : string) (st : State) : State :=
  {| ednInput := ednInput st; graphData := graphData st; error := error st;
     selectedElement := selectedElement st; isFullscreen := isFullscreen st;
     showDetails := showDetails st; storedFiles := storedFiles st;
     selectedFileId := selectedFileId st; isEditingFileName := isEditingFileName st;
     newFileName := v; showFilesDialog := showFilesDialog st;
     showInfoModal := showInfoModal st |}.

Definition setShowFilesDialog (v : bool) (st : State) : State :=
  {| ednInput := ednInput st; graphData := graphData st; error := error st;
     selectedElement := selectedElement st; isFullscreen := isFullscreen st;
     showDetails := showDetails st; storedFiles := storedFiles st;
     selectedFileId := selectedFileId st; isEditingFileName := isEditingFileName st;
     newFileName := newFileName st; showFilesDialog := v;
     showInfoModal := showInfoModal st |}.

(** The effect of the first render: the files read from the local storage
    of the browser, whatever they are, become the stored files. *)
Definition mounted (files : list StoredFile) : State :=
  setStoredFiles (λ _, files) initial.

(** The [try] and the [catch] of [handleVisualize]: whatever is thrown is an
    [Error] and has a message. *)
Definition handleVisualize (st : State) : State :=
  match visualize (ednInput st) with
  | Ok newGraphData => setError EmptyString (setGraphData newGraphData st)
  | Throw message =>
      setGraphData None (setError ("Failed to parse EDN: " +:+ message) st)
  end.

Definition onNodeClick (node : Node) (st : State) : State :=
  setShowDetails true (setSelectedElement (Some (SelectedNode node)) st).

Definition onEdgeClick (edge : Edge) (st : State) : State :=
  setShowDetails true (setSelectedElement (Some (SelectedEdge edge)) st).

Definition loadSampleEdn (st : State) : State :=
  setSelectedFileId EmptyString
    (setGraphData None (setError EmptyString (setEdnInput DEFAULT_V3_EDN st))).

(** What [saveFile] reads off the clock: [Date.now()] for the name, then
    for the id, and [new Date().toISOString()] twice. *)
Record Clock := {
  now_of_name : N;
  now_of_id : N;
  iso_of_createdAt : string;
  iso_of_updatedAt : string;
}.

Definition saveFile (clock : Clock) (st : State) : State :=
  if negb (Str.truthy (Str.trim (ednInput st))) then st
  else
    let fileName := "Process-" +:+ pretty (now_of_name clock) in
    let newFile :=
      {| file_id := pretty (now_of_id clock);
         file_name := fileName;
         file_content := ednInput st;
         file_createdAt := iso_of_createdAt clock;
         file_updatedAt := iso_of_updatedAt clock |} in
    setSelectedFileId (file_id newFile)
      (setStoredFiles (λ prev, prev ++ [newFile]) st).

Definition loadFile (fileId : string) (st : State) : State :=
  match List.find (λ f, String.eqb (file_id f) fileId) (storedFiles st) with
  | Some file =>
      setShowFilesDialog false
        (setGraphData None
           (setError EmptyString
              (setSelectedFileId fileId (setEdnInput (file_content file) st))))
  | None => st
  end.

Definition deleteFile (fileId : string) (st : State) : State :=
  let st' :=
    setStoredFiles (List.filter (λ f, negb (String.eqb (file_id f) fileId))) st in
  if String.eqb (selectedFileId st) fileId then setSelectedFileId EmptyString st'
  else st'.

Definition startEditingFileName (fileId currentName : string) (st : State) : State :=
  setNewFileName currentName (setIsEditingFileName fileId st).

(** [now index] is what [new Date().toISOString()] gives when the file of
    that index is renamed: the clock is read once for each of them. *)
Definition saveFileName (now : nat -> string) (fileId : string) (st : State) : State :=
  if negb (Str.truthy (Str.trim (newFileName st))) then st
  else
    setNewFileName EmptyString
      (setIsEditingFileName EmptyString
         (setStoredFiles
            (imap (λ index f,
               if String.eqb (file_id f) fileId
               then {| file_id := file_id f;
                       file_name := Str.trim (newFileName st);
                       file_content := file_content f;
                       file_createdAt := file_createdAt f;
                       file_updatedAt := now index |}
               else f))
            st)).

Definition clearAll (st : State) : State :=
  setSelectedFileId EmptyString
    (setSelectedElement None
       (setError EmptyString (setGraphData None (setEdnInput EmptyString st)))).

(** What the user and the page can do, and the state after it. *)
Inductive Event :=
  | TypeEdn (text : string)
  | TypeFileName (text : string)
  | OpenFilesDialog (open : bool)
  | OpenInfoModal (open : bool)
  | ToggleFullscreen
  | CloseDetails
  | Visualize
  | ClickNode (node : Node)
  | ClickEdge (edge : Edge)
  | LoadSample
  | SaveFile (clock : Clock)
  | LoadFile (fileId : string)
  | DeleteFile (fileId : string)
  | StartEditingFileName (fileId currentName : string)
  | SaveFileName (now : nat -> string) (fileId : string)
  | ClearAll.

Definition handle (st : State) (e : Event) : State :=
  match e with
  | TypeEdn text => setEdnInput text st
  | TypeFileName text => setNewFileName text st
  | OpenFilesDialog open => setShowFilesDialog open st
  | OpenInfoModal open => setShowInfoModal open st
  | ToggleFullscreen => setIsFullscreen (negb (isFullscreen st)) st
  | CloseDetails => setShowDetails false st
  | Visualize => handleVisualize st
  | ClickNode node => onNodeClick node st
  | ClickEdge edge => onEdgeClick edge st
  | LoadSample => loadSampleEdn st
  | SaveFile clock => saveFile clock st
  | LoadFile fileId => loadFile fileId st
  | DeleteFile fileId => deleteFile fileId st
  | StartEditingFileName fileId currentName => startEditingFileName fileId currentName st
  | SaveFileName now fileId => saveFileName now fileId st
  | ClearAll => clearAll st
  end.

Definition run (events : list Event) (st : State) : State :=
  fold_left handle events st.

End Home.

(** ** Vocabulary of the further properties *)

(** The selected file, when there is one, is among the stored files. *)
Definition selection_stored (st : Home.State) : Prop :=
  Home.selectedFileId st = EmptyString
  ∨ ∃ f, f ∈ Home.storedFiles st ∧ Home.file_id f = Home.selectedFileId st.

(** Every character of [s] satisfies [f]. *)
Fixpoint all_chars (f : ascii -> bool) (s : string) : bool :=
  match s with
  | EmptyString => true
  | String c s' => f c && all_chars f s'
  end.

(** The characters of [s] that satisfy [f], in order. *)
Fixpoint keep_chars (f : ascii -> bool) (s : string) : string :=
  match s with
  | EmptyString => EmptyString
  | String c s' => if f c then String c (keep_chars f s') else keep_chars f s'
  end.

(** The pieces of [l] put end to end. *)
Definition join (l : list string) : string := fold_right String.append EmptyString l.

(** Read from the nesting [depth], the square brackets of [s] match: no
    closing bracket comes before its opening one, and none stays open. *)
Fixpoint brackets_balanced (depth : Z) (s : string) : bool :=
  match s with
  | EmptyString => depth =? 0
  | String c s' =>
      if Ascii.eqb c "[" then brackets_balanced (depth + 1) s'
      else if Ascii.eqb c "]" then (0 <? depth) && brackets_balanced (depth - 1) s'
      else brackets_balanced depth s'
  end.

(** The same for the braces of [s]. *)
Fixpoint braces_balanced (depth : Z) (s : string) : bool :=
  match s with
  | EmptyString => depth =? 0
  | String c s' =>
      if Ascii.eqb c "{" then braces_balanced (depth + 1) s'
      else if Ascii.eqb c "}" then (0 <? depth) && braces_balanced (depth - 1) s'
      else braces_balanced depth s'
  end.

(** [c] is no brace. *)
Definition no_brace (c : ascii) : bool :=
  negb (Ascii.eqb c "{") && negb (Ascii.eqb c "}").

(** The states that a walk along [outgoing] reaches from the [roots]. *)
Inductive Reachable (outgoing : string -> list string) (roots : list string)
  : string -> Prop :=
  | Reachable_root s : s ∈ roots → Reachable outgoing roots s
  | Reachable_step s to :
      Reachable outgoing roots s → to ∈ outgoing s → Reachable outgoing roots to.

(** A walk of [n] transitions along [outgoing] from a root to a state. *)
Inductive Walk (outgoing : string -> list string) (roots : list string)
  : Z -> string -> Prop :=
  | Walk_root s : s ∈ roots → Walk outgoing roots 0 s
  | Walk_step n s to :
      Walk outgoing roots n s → to ∈ outgoing s → Walk outgoing roots (n + 1) to.

(** The level of a state as an integer, [0] for a state without level. *)
Definition level_Z (levels : gmap string JsNum) (s : string) : Z :=
  match levels !! s with
  | Some (Int n) => n
  | _ => 0
  end.

(** ** The grid layout ([graph-generator.ts], [autoLayoutNodes]) *)

(** [Math.ceil(Math.sqrt(n))] for the length [n] of an array: the least
    integer whose square is at least [n]. The square root of a length (below
    [2^32]) is exact when the length is a square, and otherwise too far from
    an integer for its rounding to reach one. *)
Definition ceil_sqrt (n : Z) : Z := Z.sqrt_up n.

(** The position of the node of index [index] in a grid of [cols] columns:
    [index % cols] and [Math.floor(index / cols)], exact on indexes. *)
Definition grid_position (cols : Z) (index : nat) : JsNum * JsNum :=
  (Int (Z.of_nat index `mod` cols * 280), Int (Z.of_nat index `div` cols * 120)).

Definition autoLayoutNodes (nodes : list Node) : list Node :=
  let nodeCount := Z.of_nat (List.length nodes) in
  let cols := ceil_sqrt nodeCount in
  imap (λ index node,
          {| node_id := node_id node;
             node_position := grid_position cols index;
             node_label := node_label node;
             node_originalId := node_originalId node;
             node_fontStyle := node_fontStyle node |})
       nodes.

(** ** Termination of the level loop *)

Section LevelLoop.

Variable outgoing : string -> list string.

(** Every state that the loop can discover. *)
Variable universe : list string.

Hypothesis outgoing_universe : ∀ s to, to ∈ outgoing s → to ∈ universe.

Lemma unleveled_insert_le levels to v l :
  (unleveled (<[to := v]> levels) l ≤ unleveled levels l)%nat.
Proof.
  unfold unleveled. induction l as [|s l IH]; simpl; [lia|].
  destruct (decide (to = s)) as [->|Hne].
  - rewrite lookup_insert_eq. rewrite (bool_decide_eq_false_2 (Some v = None)) by done.
    destruct (bool_decide (levels !! s = None)); simpl; lia.
  - rewrite lookup_insert_ne by done.
    destruct (bool_decide (levels !! s = None)); simpl; lia.
Qed.

Lemma unleveled_insert_lt levels to v l :
  to ∈ l → levels !! to = None →
  (unleveled (<[to := v]> levels) l < unleveled levels l)%nat.
Proof.
  intros Hin Hnone. induction Hin as [to l|to s l Hin IH].
  - pose proof (unleveled_insert_le levels to v l) as Hle.
    unfold unleveled in *. simpl.
    rewrite lookup_insert_eq. rewrite (bool_decide_eq_false_2 (Some v = None)) by done.
    rewrite (bool_decide_eq_true_2 _ Hnone). simpl. lia.
  - specialize (IH Hnone). unfold unleveled in *. simpl.
    destruct (decide (to = s)) as [->|Hne].
    + rewrite lookup_insert_eq. rewrite (bool_decide_eq_false_2 (Some v = None)) by done.
      rewrite (bool_decide_eq_true_2 _ Hnone). simpl. lia.
    + rewrite lookup_insert_ne by done.
      destruct (bool_decide (levels !! s = None)); simpl; lia.
Qed.

Lemma discover_measure currentLevel st to :
  to ∈ universe →
  (List.length (Graph.discover currentLevel st to).1
     + unleveled (Graph.discover currentLevel st to).2 universe
   ≤ List.length st.1 + unleveled st.2 universe)%nat.
Proof.
  intros Hin. unfold Graph.discover.
  destruct (st.2 !! to) eqn:Hto; [lia|]. simpl.
  pose proof (unleveled_insert_lt st.2 to (Num.add currentLevel (Int 1)) universe Hin Hto).
  rewrite length_app. simpl. lia.
Qed.

Lemma discover_all_measure currentLevel targets st :
  (∀ to, to ∈ targets → to ∈ universe) →
  (List.length (fold_left (Graph.discover currentLevel) targets st).1
     + unleveled (fold_left (Graph.discover currentLevel) targets st).2 universe
   ≤ List.length st.1 + unleveled st.2 universe)%nat.
Proof.
  revert st. induction targets as [|to targets IH]; intros st Hsub; simpl; [lia|].
  etrans; [apply IH; intros; apply Hsub; by right|].
  apply discover_measure, Hsub. by left.
Qed.

(** The loop empties its queue within [length queue + unleveled] turns. *)
Lemma bfs_total fuel queue visited levels :
  (List.length queue + unleveled levels universe ≤ fuel)%nat →
  is_Some (Graph.bfs outgoing fuel queue visited levels).
Proof.
  revert queue visited levels.
  induction fuel as [|fuel IH]; intros queue visited levels Hfuel.
  - destruct queue; simpl in *; [eauto | lia].
  - destruct queue as [|currentState queue]; simpl in *; [eauto|].
    destruct (decide (currentState ∈ visited)).
    + apply IH. lia.
    + apply IH.
      pose proof (discover_all_measure (Graph.level_or_0 levels currentState)
                    (outgoing currentState) (queue, levels)
                    (outgoing_universe currentState)) as Hm.
      simpl in Hm. lia.
Qed.

Lemma unleveled_le_length levels l : (unleveled levels l ≤ List.length l)%nat.
Proof.
  unfold unleveled. induction l as [|s l IH]; simpl; [lia|].
  destruct (bool_decide (levels !! s = None)); simpl; lia.
Qed.

End LevelLoop.

(** ** What the level loop keeps *)

Section LevelInvariant.

Variable outgoing : string -> list string.

Lemma discover_all_subseteq currentLevel targets st :
  st.2 ⊆ (fold_left (Graph.discover currentLevel) targets st).2.
Proof.
  revert st. induction targets as [|to targets IH]; intros st; simpl; [done|].
  etrans; [|apply IH]. unfold Graph.discover.
  destruct (st.2 !! to) eqn:Hto; [done|]. simpl. by apply insert_subseteq.
Qed.

(** The loop only adds levels: a level once set is never changed. *)
Lemma bfs_subseteq fuel queue visited levels levels' :
  Graph.bfs outgoing fuel queue visited levels = Some levels' →
  levels ⊆ levels'.
Proof.
  revert queue visited levels.
  induction fuel as [|fuel IH]; intros queue visited levels Hbfs.
  - destruct queue; simpl in Hbfs; by simplify_eq.
  - destruct queue as [|currentState queue]; simpl in Hbfs; [by simplify_eq|].
    destruct (decide (currentState ∈ visited)); [by eapply IH|].
    etrans; [|eapply IH, Hbfs].
    apply (discover_all_subseteq _ _ (queue, levels)).
Qed.

Lemma level_or_0_finite levels s :
  finite_levels levels → ∃ n, Graph.level_or_0 levels s = Int n ∧ 0 ≤ n.
Proof.
  intros Hfin. unfold Graph.level_or_0.
  destruct (levels !! s) as [v|] eqn:Hs; [|exists 0; split; [done|lia]].
  destruct (Hfin _ _ Hs) as (n & -> & Hn). simpl.
  destruct (n =? 0); simpl; [exists 0; split; [done|lia] | eauto].
Qed.

Lemma discover_all_finite currentLevel targets st :
  (∃ n, currentLevel = Int n ∧ 0 ≤ n) →
  finite_levels st.2 →
  finite_levels (fold_left (Graph.discover currentLevel) targets st).2.
Proof.
  intros (n & -> & Hn). revert st.
  induction targets as [|to targets IH]; intros st Hfin; simpl; [done|].
  apply IH. unfold Graph.discover.
  destruct (st.2 !! to) eqn:Hto; [done|]. simpl.
  apply map_Forall_insert_2; [|done]. exists (n + 1). split; [done|lia].
Qed.

Lemma bfs_finite fuel queue visited levels levels' :
  finite_levels levels →
  Graph.bfs outgoing fuel queue visited levels = Some levels' →
  finite_levels levels'.
Proof.
  revert queue visited levels.
  induction fuel as [|fuel IH]; intros queue visited levels Hfin Hbfs.
  - destruct queue; simpl in Hbfs; by simplify_eq.
  - destruct queue as [|currentState queue]; simpl in Hbfs; [by simplify_eq|].
    destruct (decide (currentState ∈ visited)); [by eapply IH|].
    eapply IH, Hbfs.
    apply (discover_all_finite _ _ (queue, levels)); [|done].
    by apply level_or_0_finite.
Qed.

End LevelInvariant.

(** [Math.max] of levels that are integers from [0] on. *)
Lemma Math_max_finite (values : list JsNum) :
  Forall (λ v, ∃ n, v = Int n ∧ 0 ≤ n) values → values ≠ [] →
  ∃ n, Num.Math_max values = Int n ∧ 0 ≤ n.
Proof.
  induction 1 as [|v values (n & -> & Hn) Hall IH]; intros Hne; [done|].
  destruct values as [|w values]; [simpl; eauto|].
  destruct IH as (m & Hm & Hm0); [done|].
  change (Num.Math_max (Int n :: w :: values))
    with (Num.max (Int n) (Num.Math_max (w :: values))).
  rewrite Hm. simpl. exists (Z.max n m). split; [done|lia].
Qed.

Lemma level_values_finite levels :
  finite_levels levels →
  Forall (λ v, ∃ n, v = Int n ∧ 0 ≤ n) (Graph.level_values levels).
Proof.
  intros Hfin. unfold Graph.level_values. apply Forall_fmap, Forall_forall.
  intros [k v] Hin%elem_of_map_to_list. simpl. by eapply Hfin.
Qed.

Lemma level_values_nonempty levels k v :
  levels !! k = Some v → Graph.level_values levels ≠ [].
Proof.
  intros Hk Hnil. unfold Graph.level_values in Hnil.
  apply fmap_nil_inv, map_to_list_empty_iff in Hnil. by subst.
Qed.



(** ** The layout always returns *)

Lemma omap_length_le {A B} (f : A → option B) (l : list A) :
  (List.length (omap f l) ≤ List.length l)%nat.
Proof. induction l as [|x l IH]; csimpl; [lia|]. destruct (f x); simpl; lia. Qed.

Lemma levelsV3_total transitions :
  ∃ levels, Graph.levelsV3 transitions = Some levels
    ∧ levels !! "initial" = Some (Int 0) ∧ finite_levels levels.
Proof.
  unfold Graph.levelsV3.
  destruct (bfs_total (Graph.outgoingV3 transitions)
              (omap (λ t, Parser.if_truthy (v3_to t)) transitions))
    with (fuel := S (List.length transitions)) (queue := ["initial"])
         (visited := (∅ : gset string))
         (levels := ({["initial" := Int 0]} : gmap string JsNum))
    as [levels Hlevels].
  - intros s to (t & Ht & Hto)%list_elem_of_omap.
    apply list_elem_of_omap. exists t. split; [done|].
    by destruct (String.eqb _ _).
  - pose proof (unleveled_le_length ({["initial" := Int 0]})
                  (omap (λ t, Parser.if_truthy (v3_to t)) transitions)).
    pose proof (omap_length_le (λ t, Parser.if_truthy (v3_to t)) transitions).
    simpl. lia.
  - exists levels. split; [done|]. split.
    + eapply lookup_weaken; [|by eapply bfs_subseteq]. by rewrite lookup_singleton_eq.
    + eapply bfs_finite; [|done].
      apply map_Forall_singleton. exists 0. split; [done|lia].
Qed.

Lemma roots_finite (roots : list string) (levels : gmap string JsNum) :
  finite_levels levels →
  finite_levels (fold_left (λ levels rootState, <[rootState := Int 0]> levels) roots levels).
Proof.
  revert levels. induction roots as [|r roots IH]; intros levels Hfin; simpl; [done|].
  apply IH, map_Forall_insert_2; [|done]. exists 0. split; [done|lia].
Qed.

Lemma levelsV2_total transitions states :
  ∃ levels, Graph.levelsV2 transitions states = Some levels ∧ finite_levels levels.
Proof.
  unfold Graph.levelsV2.
  set (roots := Graph.rootStates transitions states).
  set (levels0 := fold_left (λ levels rootState, <[rootState := Int 0]> levels) roots ∅).
  destruct (bfs_total (Graph.outgoingV2 transitions)
              (List.map transition_to transitions))
    with (fuel := (List.length roots + List.length transitions)%nat) (queue := roots)
         (visited := (∅ : gset string)) (levels := levels0)
    as [levels Hlevels].
  - intros s to. unfold Graph.outgoingV2.
    rewrite !list_elem_of_In, !in_map_iff.
    intros (t & Ht & Hin%filter_In). exists t. tauto.
  - pose proof (unleveled_le_length levels0 (List.map transition_to transitions)).
    rewrite length_map in *. lia.
  - exists levels. split; [done|].
    eapply bfs_finite; [|done]. apply roots_finite, map_Forall_empty.
Qed.

Lemma mapM_make_node (position : string → option (JsNum * JsNum)) (states : list string) :
  (∀ s, is_Some (position s)) →
  ∃ ns, mapM (λ state, Graph.make_node state <$> position state) states = Some ns
    ∧ List.map node_id ns = states
    ∧ Forall (λ n, position (node_id n) = Some (node_position n)) ns.
Proof.
  intros Hpos. induction states as [|s states (ns & Hns & Hids & Hall)].
  - exists []. by repeat split.
  - destruct (Hpos s) as [xy Hxy].
    exists (Graph.make_node s xy :: ns). split; [|split].
    + apply mapM_Some_2. constructor; [by rewrite Hxy | by apply mapM_Some_1].
    + simpl. by rewrite Hids.
    + by constructor.
Qed.

Lemma getImprovedTreePosition_total state transitions states :
  is_Some (Graph.getImprovedTreePosition state transitions states).
Proof.
  unfold Graph.getImprovedTreePosition.
  destruct (levelsV3_total transitions) as (levels & -> & _). simpl. eauto.
Qed.

Lemma getVerticalTreePositionV2_total state transitions states :
  is_Some (Graph.getVerticalTreePositionV2 state transitions states).
Proof.
  unfold Graph.getVerticalTreePositionV2.
  destruct (levelsV2_total transitions states) as (levels & -> & _). simpl. eauto.
Qed.

(** The modern builder returns a graph: one node per state of the state
    set, placed by the layout, and the edges of the transitions in order. *)
Lemma generateV3GraphData_total processData :
  ∃ g, Graph.generateV3GraphData processData = Some g
    ∧ List.map node_id (nodes g) = Graph.statesV3 (default [] (transitions processData))
    ∧ Forall (λ n, Graph.getImprovedTreePosition (node_id n)
                     (default [] (transitions processData))
                     (Graph.statesV3 (default [] (transitions processData)))
                   = Some (node_position n)) (nodes g)
    ∧ edges g = mjoin (imap Graph.edgesV3_of (default [] (transitions processData))).
Proof.
  unfold Graph.generateV3GraphData.
  set (ts := default [] (transitions processData)).
  destruct (mapM_make_node
              (λ state, Graph.getImprovedTreePosition state ts (Graph.statesV3 ts))
              (Graph.statesV3 ts)) as (ns & -> & Hids & Hall).
  { intros s. apply getImprovedTreePosition_total. }
  simpl. eexists. split; [done|]. by repeat split.
Qed.

(** The legacy builder returns a graph: one node per declared state, and
    the edges of the transitions in order. *)
Lemma generateV2GraphData_total processData :
  ∃ g, Graph.generateV2GraphData processData = Some g
    ∧ List.map node_id (nodes g) = default [] (process_states processData)
    ∧ Forall (λ n, Graph.getVerticalTreePositionV2 (node_id n)
                     (default [] (process_transitions processData))
                     (default [] (process_states processData))
                   = Some (node_position n)) (nodes g)
    ∧ edges g = mjoin (imap Graph.edgesV2_of (default [] (process_transitions processData))).
Proof.
  unfold Graph.generateV2GraphData.
  set (ts := default [] (process_transitions processData)).
  set (states := default [] (process_states processData)).
  destruct (mapM_make_node
              (λ state, Graph.getVerticalTreePositionV2 state ts states) states)
    as (ns & -> & Hids & Hall).
  { intros s. apply getVerticalTreePositionV2_total. }
  simpl. eexists. split; [done|]. by repeat split.
Qed.


(** ** The reader: dispatch and failures *)

(** C10: when the text without its comments contains [:format :v3]
    anywhere, [parseEdn] takes the modern path, whatever else the text
    holds; it takes the legacy path only when that marker is absent and both
    [:process/id] and [:process/states] occur; otherwise the format is not
    recognized. *)
Theorem parseEdn_dispatch (ednString : string) :
  let cleanEdn := Str.strip_comments ednString in
  (Str.includes ":format :v3" cleanEdn = true →
     Parser.parseEdn ednString = Parser.parseV3Format cleanEdn)
  ∧ (Str.includes ":format :v3" cleanEdn = false →
     Str.includes ":process/id" cleanEdn = true →
     Str.includes ":process/states" cleanEdn = true →
     Parser.parseEdn ednString = Parser.parseV2Format cleanEdn)
  ∧ (Str.includes ":format :v3" cleanEdn = false →
     Str.includes ":process/id" cleanEdn = false
       ∨ Str.includes ":process/states" cleanEdn = false →
     Parser.parseEdn ednString
       = Throw "Unrecognized EDN format. Please provide a valid Sharetribe transaction process.").
Proof.
  intros cleanEdn. unfold Parser.parseEdn, Parser.isV3Format, Parser.isV2Format.
  fold cleanEdn. repeat split.
  - by intros ->.
  - by intros -> -> ->.
  - intros -> [-> | ->]; [done|]. by rewrite andb_false_r.
Qed.

Lemma parseEdn_dispatch_witness :
  Str.includes ":format :v3" (Str.strip_comments docBoth) = true
  ∧ Str.includes ":process/id" (Str.strip_comments docBoth) = true
  ∧ Str.includes ":process/states" (Str.strip_comments docBoth) = true
  ∧ Parser.parseEdn docBoth = Parser.parseV3Format (Str.strip_comments docBoth).
Proof.
  split; [reflexivity|]. split; [reflexivity|]. split; [reflexivity|].
  apply (proj1 (parseEdn_dispatch docBoth)). reflexivity.
Defined.




(** ** Transitions that lack a field *)










(** ** The node set and the endpoints of the edges *)

Lemma if_truthy_or_else o s fallback :
  Parser.if_truthy o = Some s → Graph.or_else o fallback = s.
Proof.
  unfold Parser.if_truthy, Graph.or_else.
  destruct o as [x|]; [|done]. destruct (Str.truthy x); by intros [= ->].
Qed.

Lemma if_truthy_None_or_else o fallback :
  Parser.if_truthy o = None →
  Graph.or_else o fallback = fallback ∧ Graph.present o = false.
Proof.
  unfold Parser.if_truthy, Graph.or_else, Graph.present.
  destruct o as [x|]; [|done]. by destruct (Str.truthy x).
Qed.

Lemma elem_of_set_add x s set :
  x ∈ Graph.set_add s set ↔ x = s ∨ x ∈ set.
Proof.
  unfold Graph.set_add. case_bool_decide as Hin.
  - split; [by right|]. by intros [->|].
  - rewrite elem_of_app, list_elem_of_singleton. tauto.
Qed.

Lemma add_endpoints_mono x stateSet t :
  x ∈ stateSet → x ∈ Graph.add_endpoints stateSet t.
Proof.
  intros Hx. unfold Graph.add_endpoints.
  destruct (Parser.if_truthy (v3_from t)), (Parser.if_truthy (v3_to t));
    rewrite ?elem_of_set_add; tauto.
Qed.

Lemma add_endpoints_all_mono x transitions stateSet :
  x ∈ stateSet → x ∈ fold_left Graph.add_endpoints transitions stateSet.
Proof.
  revert stateSet. induction transitions as [|t transitions IH]; intros stateSet Hx;
    simpl; [done|].
  by apply IH, add_endpoints_mono.
Qed.

Lemma add_endpoints_all_from t f transitions stateSet :
  t ∈ transitions → Parser.if_truthy (v3_from t) = Some f →
  f ∈ fold_left Graph.add_endpoints transitions stateSet.
Proof.
  intros Hin Hf. revert stateSet.
  induction Hin as [t transitions|t u transitions Hin IH]; intros stateSet; simpl;
    [|by apply IH].
  apply add_endpoints_all_mono. unfold Graph.add_endpoints. rewrite Hf.
  destruct (Parser.if_truthy (v3_to t)); rewrite ?elem_of_set_add; tauto.
Qed.

Lemma add_endpoints_all_to t to transitions stateSet :
  t ∈ transitions → Parser.if_truthy (v3_to t) = Some to →
  to ∈ fold_left Graph.add_endpoints transitions stateSet.
Proof.
  intros Hin Hto. revert stateSet.
  induction Hin as [t transitions|t u transitions Hin IH]; intros stateSet; simpl;
    [|by apply IH].
  apply add_endpoints_all_mono. unfold Graph.add_endpoints. rewrite Hto.
  rewrite elem_of_set_add. tauto.
Qed.

Lemma NoDup_set_add s set : NoDup set → NoDup (Graph.set_add s set).
Proof.
  intros Hnd. unfold Graph.set_add. case_bool_decide as Hin; [done|].
  apply NoDup_app. split; [done|]. split; [|apply NoDup_singleton].
  intros x Hx ->%list_elem_of_singleton. done.
Qed.

Lemma NoDup_add_endpoints_all transitions stateSet :
  NoDup stateSet → NoDup (fold_left Graph.add_endpoints transitions stateSet).
Proof.
  revert stateSet. induction transitions as [|t transitions IH]; intros stateSet Hnd;
    simpl; [done|].
  apply IH. unfold Graph.add_endpoints.
  destruct (Parser.if_truthy (v3_from t)), (Parser.if_truthy (v3_to t));
    auto using NoDup_set_add.
Qed.

(** The state set names no state twice. *)
Lemma statesV3_NoDup transitions : NoDup (Graph.statesV3 transitions).
Proof.
  unfold Graph.statesV3. apply NoDup_add_endpoints_all.
  destruct (List.filter _ transitions); [apply NoDup_nil_2 | apply NoDup_singleton].
Qed.

(** The state set holds [initial] as soon as one transition has no [from]. *)
Lemma statesV3_initial t transitions :
  t ∈ transitions → Graph.present (v3_from t) = false →
  "initial" ∈ Graph.statesV3 transitions.
Proof.
  intros Hin Hfrom. unfold Graph.statesV3. apply add_endpoints_all_mono.
  assert (t ∈ List.filter (λ t, negb (Graph.present (v3_from t))) transitions) as Hf.
  { apply list_elem_of_In, filter_In. split; [by apply list_elem_of_In|]. by rewrite Hfrom. }
  destruct (List.filter _ transitions); [by apply elem_of_nil in Hf|].
  apply elem_of_set_add. by left.
Qed.

Lemma statesV3_source t transitions :
  t ∈ transitions → Graph.from_or_initial t ∈ Graph.statesV3 transitions.
Proof.
  intros Hin. unfold Graph.from_or_initial.
  destruct (Parser.if_truthy (v3_from t)) as [f|] eqn:Hf.
  - rewrite (if_truthy_or_else _ _ _ Hf). by eapply add_endpoints_all_from.
  - destruct (if_truthy_None_or_else _ "initial" Hf) as [-> Hp].
    by eapply statesV3_initial.
Qed.

Lemma elem_of_edges {A} (edges_of : nat → A → list Edge) (l : list A) (e : Edge) :
  e ∈ mjoin (imap edges_of l) ↔ ∃ i t, l !! i = Some t ∧ e ∈ edges_of i t.
Proof.
  rewrite list_elem_of_join. split.
  - intros (es & He & (i & t & -> & Ht)%elem_of_lookup_imap). eauto.
  - intros (i & t & Ht & He). exists (edges_of i t). split; [done|].
    by eapply elem_of_lookup_imap_2.
Qed.

Lemma edgesV3_of_endpoints i t e :
  e ∈ Graph.edgesV3_of i t →
  edge_source e = Graph.from_or_initial t
  ∧ Parser.if_truthy (v3_to t) = Some (edge_target e).
Proof.
  unfold Graph.edgesV3_of.
  destruct (Parser.if_truthy (v3_to t)) as [to|]; [|by intros ?%elem_of_nil].
  by intros ->%list_elem_of_singleton.
Qed.

Lemma edgesV2_of_endpoints i t e :
  e ∈ Graph.edgesV2_of i t →
  edge_source e ∈ Graph.fromStates t ∧ edge_target e = transition_to t.
Proof.
  unfold Graph.edgesV2_of.
  intros (j & f & -> & Hf)%elem_of_lookup_imap. simpl.
  split; [by eapply list_elem_of_lookup_2 | done].
Qed.

(** C2, as stated, fails: in the graph of [docUndeclared] the edge goes to
    [b], and the only node is [a]. *)
Lemma legacy_edge_to_undeclared_state :
  ∃ g, visualize docUndeclared = Ok (Some g)
    ∧ List.map node_id (nodes g) = ["a"]
    ∧ ∃ e, e ∈ edges g ∧ edge_target e = "b"
        ∧ edge_target e ∉ List.map node_id (nodes g).
Proof.
  eexists. split; [vm_compute; reflexivity|]. split; [reflexivity|].
  eexists. split; [by left|]. split; [reflexivity|].
  simpl. by intros [=]%list_elem_of_singleton.
Qed.

(** C2, amended: the modern builder makes a node for every state that a
    transition names as [from] or [to], and for [initial] when an edge leaves
    it, so both ends of every edge are nodes. The legacy builder makes the
    nodes of the declared states and of no other: an end of an edge, a
    [from] or the [to] of a transition, is a node when it is declared. *)
Theorem node_set_closure :
  (∀ processData, ∃ g,
      Graph.generateV3GraphData processData = Some g
      ∧ (∀ t s, t ∈ default [] (transitions processData) →
           Parser.if_truthy (v3_from t) = Some s ∨ Parser.if_truthy (v3_to t) = Some s →
           s ∈ List.map node_id (nodes g))
      ∧ (∀ e, e ∈ edges g →
           edge_source e ∈ List.map node_id (nodes g)
           ∧ edge_target e ∈ List.map node_id (nodes g)))
  ∧ (∀ processData, ∃ g,
      Graph.generateV2GraphData processData = Some g
      ∧ List.map node_id (nodes g) = default [] (process_states processData)
      ∧ (∀ e, e ∈ edges g →
           ∃ t, t ∈ default [] (process_transitions processData)
             ∧ edge_source e ∈ Graph.fromStates t
             ∧ edge_target e = transition_to t)).
Proof.
  split; intros processData.
  - destruct (generateV3GraphData_total processData) as (g & Hg & Hids & _ & Hedges).
    exists g. split; [done|]. rewrite Hids, Hedges. split.
    + intros t s Ht [Hs|Hs].
      * by eapply add_endpoints_all_from.
      * by eapply add_endpoints_all_to.
    + intros e (i & t & Ht%list_elem_of_lookup_2 & He)%elem_of_edges.
      destruct (edgesV3_of_endpoints _ _ _ He) as [-> Hto]. split.
      * by apply statesV3_source.
      * by eapply add_endpoints_all_to.
  - destruct (generateV2GraphData_total processData) as (g & Hg & Hids & _ & Hedges).
    exists g. split; [done|]. split; [done|]. rewrite Hedges.
    intros e (i & t & Ht%list_elem_of_lookup_2 & He)%elem_of_edges.
    exists t. split; [done|]. by eapply edgesV2_of_endpoints.
Qed.

(** ** The synthetic start state *)




(** ** One edge per from-state *)






(** ** Coordinates *)







(** ** A cycle without a root *)

(** Without a root the loop has nothing to do and leaves no level. *)
Lemma levelsV2_without_root transitions states :
  Graph.rootStates transitions states = [] →
  Graph.levelsV2 transitions states = Some ∅.
Proof.
  intros Hroots. unfold Graph.levelsV2. rewrite Hroots. simpl.
  by destruct (List.length transitions).
Qed.

(** The legacy layout of a process in which every state is a target: each
    state is placed on the level [-Infinity]. *)
Lemma legacy_layout_without_root state transitions states :
  Graph.rootStates transitions states = [] →
  ∃ x, Graph.getVerticalTreePositionV2 state transitions states = Some (x, NegInfinity).
Proof.
  intros Hroots. unfold Graph.getVerticalTreePositionV2.
  rewrite (levelsV2_without_root _ _ Hroots). simpl.
  unfold Graph.level_of, Graph.place_at_bottom, Graph.level_or_0.
  rewrite lookup_empty, lookup_insert_eq. simpl. eauto.
Qed.

(** C3 fails on the legacy layout. In [docCycle] every state is the target
    of a transition, so there is no root, the loop assigns no level, and
    [Math.max] of no level is [-Infinity]: both nodes get the level
    [-Infinity] and the ordinate [-Infinity]. *)
Theorem cycle_without_root_has_no_finite_level :
  ∃ p transitions g,
    Parser.parseEdn docCycle = Ok p
    ∧ process_states p = Some ["a"; "b"]
    ∧ process_transitions p = Some transitions
    ∧ Graph.levelsV2 transitions ["a"; "b"] = Some ∅
    ∧ Graph.level_of ∅ "a" = NegInfinity
    ∧ Graph.level_of ∅ "b" = NegInfinity
    ∧ visualize docCycle = Ok (Some g)
    ∧ List.map node_id (nodes g) = ["a"; "b"]
    ∧ List.map node_position (nodes g) = [(Int 100, NegInfinity); (Int 100, NegInfinity)].
Proof.
  do 3 eexists. split; [vm_compute; reflexivity|].
  split; [reflexivity|]. split; [reflexivity|]. split; [reflexivity|].
  split; [reflexivity|]. split; [reflexivity|].
  split; [vm_compute; reflexivity|]. split; reflexivity.
Qed.

(** ** Colours *)

(** C9 fails on the actor [constructor]: the read [ACTOR_COLORS[key]] finds
    the member that every object literal inherits, a function, which is
    truthy, so the default is not taken and no colour is returned. The edge
    of [docConstructor] carries it as its stroke. *)
Theorem actor_constructor_has_no_colour :
  Graph.getActorColor "constructor" = JsInherited "constructor"
  ∧ Graph.getActorColor "actor.role/constructor" = JsInherited "constructor"
  ∧ Graph.getActorColor "__proto__" = JsInherited "__proto__"
  ∧ ∃ g, visualize docConstructor = Ok (Some g)
      ∧ List.map edge_stroke (edges g) = [JsInherited "constructor"].
Proof.
  split; [reflexivity|]. split; [reflexivity|]. split; [reflexivity|].
  eexists. split; [vm_compute; reflexivity|]. reflexivity.
Qed.

(** Every other actor gets a colour: the one of its own entry in the
    table, or the default. *)
Lemma getActorColor_colour (actor : string) :
  existsb (String.eqb (Str.strip_prefix "actor.role/" (Str.toLowerCase actor)))
    Graph.Object_prototype = false →
  ∃ colour, Graph.getActorColor actor = JsString colour
    ∧ colour ∈ ["#F97316"; "#EC4899"; "#10B981"; "#6B7280"].
Proof.
  unfold Graph.getActorColor, Graph.ACTOR_COLORS_get.
  generalize (Str.strip_prefix "actor.role/" (Str.toLowerCase actor)).
  intros key ->. unfold Graph.ACTOR_COLORS, Graph.own.
  repeat (destruct (String.eqb _ key);
          [eexists; split; [reflexivity | set_solver]|]).
  eexists; split; [reflexivity | set_solver].
Qed.

(** ** Comments *)

Lemma includes_char_cons (c a : ascii) (s : string) :
  Str.includes (String c EmptyString) (String a s)
  = Ascii.eqb c a || Str.includes (String c EmptyString) s.
Proof.
  unfold Str.includes. simpl. destruct (Ascii.eqb c a); [done|]. done.
Qed.

Lemma includes_char_all (c : ascii) (s : string) :
  Str.includes (String c EmptyString) s
  = negb (all_chars (λ a, negb (Ascii.eqb a c)) s).
Proof.
  induction s as [|a s IH]; [done|].
  rewrite includes_char_cons, IH. simpl.
  rewrite (Ascii.eqb_sym a c). by destruct (Ascii.eqb c a).
Qed.

Lemma strip_comments_go_no_semicolon in_comment s :
  all_chars (λ a, negb (Ascii.eqb a ";")) (Str.strip_comments_go in_comment s) = true.
Proof.
  revert in_comment. induction s as [|c s IH]; intros in_comment; simpl; [done|].
  destruct (Str.is_line_terminator c) eqn:Hlt.
  - simpl. rewrite IH.
    destruct (Ascii.eqb c ";") eqn:Hc; [|done].
    apply Ascii.eqb_eq in Hc. by subst.
  - destruct in_comment; [apply IH|].
    destruct (Ascii.eqb c ";") eqn:Hc; [apply IH|].
    simpl. by rewrite Hc, IH.
Qed.

(** X1: the text that [parseEdn] reads after removing the comments holds
    no semicolon: every [;], also one inside a string literal, starts a
    comment that runs to the end of its line. *)
Theorem strip_comments_no_semicolon (ednString : string) :
  Str.includes ";" (Str.strip_comments ednString) = false.
Proof.
  rewrite includes_char_all. unfold Str.strip_comments.
  by rewrite strip_comments_go_no_semicolon.
Qed.

Lemma strip_comments_go_id s :
  all_chars (λ a, negb (Ascii.eqb a ";")) s = true →
  Str.strip_comments_go false s = s.
Proof.
  induction s as [|c s IH]; simpl; [done|].
  intros [Hc Hs]%andb_true_iff. apply negb_true_iff in Hc.
  rewrite Hc, (IH Hs). by destruct (Str.is_line_terminator c).
Qed.

(** X2: a text without semicolon is left as it is by the removal of the
    comments, and removing the comments twice is removing them once. *)
Theorem strip_comments_idempotent (ednString : string) :
  (Str.includes ";" ednString = false → Str.strip_comments ednString = ednString)
  ∧ Str.strip_comments (Str.strip_comments ednString) = Str.strip_comments ednString.
Proof.
  split.
  - rewrite includes_char_all. intros Hno%negb_false_iff.
    by apply strip_comments_go_id.
  - apply strip_comments_go_id, strip_comments_go_no_semicolon.
Qed.

Lemma strip_comments_idempotent_witness :
  Str.includes ";" "{:a 1}" = false ∧ Str.strip_comments "{:a 1}" = "{:a 1}".
Proof.
  split; [reflexivity|].
  apply (proj1 (strip_comments_idempotent "{:a 1}")). reflexivity.
Defined.

Lemma strip_comments_go_lines in_comment s :
  keep_chars Str.is_line_terminator (Str.strip_comments_go in_comment s)
  = keep_chars Str.is_line_terminator s.
Proof.
  revert in_comment. induction s as [|c s IH]; intros in_comment; simpl; [done|].
  destruct (Str.is_line_terminator c) eqn:Hlt.
  - simpl. by rewrite Hlt, IH.
  - destruct in_comment; [apply IH|].
    destruct (Ascii.eqb c ";"); [apply IH|].
    simpl. by rewrite Hlt, IH.
Qed.

(** X3: the removal of the comments keeps every line terminator, in
    order: a comment never swallows the end of its line, so the text keeps
    its lines. *)
Theorem strip_comments_keeps_lines (ednString : string) :
  keep_chars Str.is_line_terminator (Str.strip_comments ednString)
  = keep_chars Str.is_line_terminator ednString.
Proof. apply strip_comments_go_lines. Qed.

(** ** Strings put end to end *)

Lemma app_cons c s t : String c s +:+ t = String c (s +:+ t).
Proof. reflexivity. Qed.

Lemma app_nil_l s : EmptyString +:+ s = s.
Proof. reflexivity. Qed.

Lemma app_nil_r s : s +:+ EmptyString = s.
Proof. induction s as [|c s IH]; [done|]. by rewrite app_cons, IH. Qed.

Lemma app_assoc s t u : (s +:+ t) +:+ u = s +:+ (t +:+ u).
Proof. induction s as [|c s IH]; [done|]. by rewrite !app_cons, IH. Qed.

Lemma all_chars_app f s t :
  all_chars f (s +:+ t) = all_chars f s && all_chars f t.
Proof.
  induction s as [|c s IH]; [done|].
  rewrite app_cons. simpl. rewrite IH. by rewrite andb_assoc.
Qed.

Lemma length_app_string s t :
  Str.length (s +:+ t) = (Str.length s + Str.length t)%nat.
Proof. induction s as [|c s IH]; [done|]. rewrite app_cons. simpl. by rewrite IH. Qed.

Lemma take_app_string s t : Str.take (Str.length s) (s +:+ t) = s.
Proof. induction s as [|c s IH]; [by destruct t|]. rewrite app_cons. simpl. by rewrite IH. Qed.

Lemma rev_onto_app s acc : Str.rev_onto s acc = Str.rev s +:+ acc.
Proof.
  unfold Str.rev. revert acc. induction s as [|c s IH]; intros acc; simpl; [done|].
  rewrite (IH (String c acc)), (IH (String c EmptyString)).
  by rewrite app_assoc.
Qed.

Lemma rev_cons c s : Str.rev (String c s) = Str.rev s +:+ String c EmptyString.
Proof. unfold Str.rev at 1. simpl. apply rev_onto_app. Qed.

Lemma all_chars_rev f s : all_chars f (Str.rev s) = all_chars f s.
Proof.
  induction s as [|c s IH]; [done|].
  rewrite rev_cons, all_chars_app, IH. simpl.
  rewrite andb_true_r. apply andb_comm.
Qed.

Lemma after_lit_app lit s r : Str.after_lit lit s = Some r → s = lit +:+ r.
Proof.
  revert s. induction lit as [|a lit IH]; intros s; simpl; [by intros [= ->]|].
  destruct s as [|b s]; [done|].
  destruct (Ascii.eqb a b) eqn:Hab; [|done].
  apply Ascii.eqb_eq in Hab as ->. intros ->%IH. done.
Qed.

Lemma all_chars_drop f n s : all_chars f s = true → all_chars f (Str.drop n s) = true.
Proof.
  revert s. induction n as [|n IH]; intros s; [by destruct s|].
  destruct s as [|c s]; [done|]. simpl. intros [_ Hs]%andb_true_iff. by apply IH.
Qed.

Lemma all_chars_strip_prefix f lit s :
  all_chars f s = true → all_chars f (Str.strip_prefix lit s) = true.
Proof.
  unfold Str.strip_prefix. destruct (Str.after_lit lit s) as [r|] eqn:Hr; [|done].
  apply after_lit_app in Hr as ->. rewrite all_chars_app.
  by intros [_ ?]%andb_true_iff.
Qed.

(** ** Splitting *)

Lemma split_lookahead_go_join la cur s :
  join (Str.split_lookahead_go la cur s) = Str.rev cur +:+ s.
Proof.
  revert cur. induction s as [|c s IH]; intros cur; simpl.
  - unfold join. simpl. by rewrite !app_nil_r.
  - destruct (la (String c s)).
    + unfold join in *. simpl. by rewrite IH.
    + rewrite IH, rev_cons, app_assoc. done.
Qed.

(** X4: cutting a text before every [{:transition/id] (or [{:name]) loses
    nothing: the pieces, the blank ones included, put end to end give the
    text back. *)
Theorem split_lookahead_join (la : string → bool) (s : string) :
  join (Str.split_lookahead la s) = s.
Proof.
  destruct s as [|c s]; [done|].
  unfold Str.split_lookahead. by rewrite split_lookahead_go_join.
Qed.

Lemma split_ws_go_no_space cur in_sep s :
  all_chars (λ c, negb (Str.is_space c)) cur = true →
  Forall (λ piece, all_chars (λ c, negb (Str.is_space c)) piece = true)
    (Str.split_ws_go cur in_sep s).
Proof.
  revert cur in_sep. induction s as [|c s IH]; intros cur in_sep Hcur; simpl.
  - constructor; [|done]. by rewrite all_chars_rev.
  - destruct (Str.is_space c) eqn:Hc.
    + destruct in_sep; [by apply IH|].
      constructor; [by rewrite all_chars_rev | by apply IH].
    + apply IH. simpl. by rewrite Hc.
Qed.

Lemma keywordNames_free_of_space (ns content name : string) :
  name ∈ Parser.keywordNames ns content →
  all_chars (λ c, negb (Str.is_space c)) name = true.
Proof.
  unfold Parser.keywordNames. rewrite list_elem_of_In, in_map_iff.
  intros (piece & <- & [Hin _]%filter_In).
  apply all_chars_strip_prefix, all_chars_drop.
  pose proof (split_ws_go_no_space EmptyString false content eq_refl) as Hall.
  rewrite Forall_forall in Hall. by apply Hall, list_elem_of_In.
Qed.

(** X5: the names that the reader takes out of a set or a vector
    ([#{:a :b}], [[:action/x :action/y]]) hold no white space and each comes
    from a piece of the text that starts with a colon, whatever the text
    between the delimiters. *)
Theorem keywordNames_no_space (ns content name : string) :
  name ∈ Parser.keywordNames ns content →
  all_chars (λ c, negb (Str.is_space c)) name = true
  ∧ ∃ piece, piece ∈ Str.split_ws content ∧ Str.startsWith ":" piece = true
      ∧ name = Str.strip_prefix ns (Str.substring1 piece).
Proof.
  intros Hname. split; [by eapply keywordNames_free_of_space|].
  unfold Parser.keywordNames in Hname.
  apply list_elem_of_In, in_map_iff in Hname as (piece & <- & [Hin Hf]%filter_In).
  exists piece. apply andb_true_iff in Hf as [_ Hf].
  split; [by apply list_elem_of_In|done].
Qed.

Lemma keywordNames_no_space_witness :
  "b" ∈ Parser.keywordNames "action/" (":action/a  :action/b" +:+ nl)
  ∧ all_chars (λ c, negb (Str.is_space c)) "b" = true
  ∧ ∃ piece, piece ∈ Str.split_ws (":action/a  :action/b" +:+ nl)
      ∧ Str.startsWith ":" piece = true
      ∧ "b" = Str.strip_prefix "action/" (Str.substring1 piece).
Proof.
  assert ("b" ∈ Parser.keywordNames "action/" (":action/a  :action/b" +:+ nl)) as Hin.
  { vm_compute. right. left. }
  split; [exact Hin|]. exact (keywordNames_no_space _ _ _ Hin).
Defined.

(** ** What the patterns capture *)

Lemma span_spec f s a b :
  Str.span f s = (a, b) → s = a +:+ b ∧ all_chars f a = true.
Proof.
  revert a b. induction s as [|c s IH]; intros a b; simpl; [by intros [= <- <-]|].
  destruct (f c) eqn:Hc; [|by intros [= <- <-]].
  destruct (Str.span f s) as [a' b']. intros [= <- <-].
  destruct (IH a' b' eq_refl) as [-> Ha]. split; [done|]. simpl. by rewrite Hc, Ha.
Qed.

Lemma plus1_spec f s a b :
  Str.plus1 f s = Some (a, b) →
  a ≠ EmptyString ∧ s = a +:+ b ∧ all_chars f a = true.
Proof.
  unfold Str.plus1. destruct (Str.span f s) as [a' b'] eqn:Hspan.
  destruct a' as [|c a']; [done|]. intros [= <- <-].
  destruct (span_spec _ _ _ _ Hspan). done.
Qed.

Lemma find_first_Some {A} (m : string → option A) s r :
  Str.find_first m s = Some r → ∃ before at_, s = before +:+ at_ ∧ m at_ = Some r.
Proof.
  induction s as [|c s IH]; simpl.
  - destruct (m EmptyString) eqn:Hm; [|done]. intros [= ->]. by exists EmptyString, EmptyString.
  - destruct (m (String c s)) eqn:Hm.
    + intros [= ->]. by exists EmptyString, (String c s).
    + intros (before & at_ & -> & Hat)%IH. by exists (String c before), at_.
Qed.

Lemma find_first_None {A} (m : string → option A) before at_ :
  Str.find_first m (before +:+ at_) = None → m at_ = None.
Proof.
  induction before as [|c before IH].
  - change (EmptyString +:+ at_) with at_. intros Hnone.
    destruct at_ as [|c at_]; simpl in Hnone.
    + by destruct (m EmptyString).
    + by destruct (m (String c at_)).
  - rewrite app_cons. simpl.
    destruct (m (String c (before +:+ at_))); [done|]. apply IH.
Qed.

(** A keyword found behind a key is not empty and holds none of the
    characters that end it. *)
Lemma keyword_spec key stop s cap :
  Re.keyword key stop s = Some cap →
  cap ≠ EmptyString ∧ all_chars (λ c, negb (stop c)) cap = true.
Proof.
  intros (before & at_ & _ & Hat)%find_first_Some.
  unfold Re.keyword_at in Hat.
  apply bind_Some in Hat as (r1 & _ & Hat).
  apply bind_Some in Hat as ([ws r2] & _ & Hat).
  apply bind_Some in Hat as (r3 & _ & Hat).
  apply bind_Some in Hat as ([cap' r4] & Hcap & Hat).
  injection Hat as <-. apply plus1_spec in Hcap. tauto.
Qed.

Lemma stop_ws_no_space cap :
  all_chars (λ c, negb (Re.stop_ws c)) cap = true →
  all_chars (λ c, negb (Str.is_space c)) cap = true.
Proof. done. Qed.

Lemma from_spec text fromContent :
  Re.from text = Some fromContent →
  (∃ inside, fromContent = "#{" +:+ inside +:+ "}")
  ∨ (∃ cap, fromContent = ":" +:+ cap ∧ cap ≠ EmptyString
       ∧ all_chars (λ c, negb (Str.is_space c)) cap = true).
Proof.
  intros (before & at_ & _ & Hat)%find_first_Some.
  unfold Re.from_at in Hat.
  apply bind_Some in Hat as (r1 & _ & Hat).
  apply bind_Some in Hat as ([ws r2] & _ & Hat).
  destruct (Re.enclosed_at "#{" "}" r2) as [inside|].
  { injection Hat as <-. left. eauto. }
  apply bind_Some in Hat as (r3 & _ & Hat).
  apply bind_Some in Hat as ([cap r4] & Hcap & Hat).
  injection Hat as <-. apply plus1_spec in Hcap. right. exists cap. tauto.
Qed.

(** X6: a legacy transition that [parseTransition] returns has an id, a
    target and an actor that are not empty and hold no white space, and
    from-states, actions and notifications without white space. *)
Theorem parseTransition_names (transitionText : string) (d : TransitionDefinition) :
  Parser.parseTransition transitionText = Ok d →
  let no_space := all_chars (λ c, negb (Str.is_space c)) in
  (transition_id d ≠ EmptyString ∧ no_space (transition_id d) = true)
  ∧ (transition_to d ≠ EmptyString ∧ no_space (transition_to d) = true)
  ∧ (transition_actor d ≠ EmptyString ∧ no_space (transition_actor d) = true)
  ∧ (∀ s, s ∈ Graph.fromStates d → no_space s = true)
  ∧ (∀ a, a ∈ default [] (transition_actions d) → no_space a = true)
  ∧ (∀ n, n ∈ default [] (transition_notifications d) → no_space n = true).
Proof.
  unfold Parser.parseTransition.
  destruct (Re.keyword ":transition/id" _ _) as [id|] eqn:Hid; [|done].
  destruct (Re.from transitionText) as [fromContent|] eqn:Hfrom; [|done].
  destruct (Re.keyword ":transition/to" _ _) as [to|] eqn:Hto; [|done].
  destruct (Re.keyword ":transition/actor" _ _) as [actor|] eqn:Hactor; [|done].
  intros [= <-]. cbv zeta. simpl.
  apply keyword_spec in Hid, Hto, Hactor.
  split; [done|]. split; [done|]. split; [done|]. split; [|split].
  - unfold Graph.fromStates. simpl.
    destruct (from_spec _ _ Hfrom) as [(inside & ->)|(cap & -> & _ & Hcap)].
    + change (Str.startsWith "#{" ("#{" +:+ inside +:+ "}")) with true. simpl.
      intros s Hs. by eapply keywordNames_free_of_space.
    + change (Str.startsWith "#{" (":" +:+ cap)) with false. simpl.
      by intros s ->%list_elem_of_singleton.
  - destruct (Re.enclosed_after ":transition/actions" _ _ _); simpl;
      [|by intros a ?%elem_of_nil].
    intros a Ha. by eapply keywordNames_free_of_space.
  - destruct (Re.enclosed_after ":transition/notifications" _ _ _); simpl;
      [|by intros a ?%elem_of_nil].
    intros a Ha. by eapply keywordNames_free_of_space.
Qed.

Lemma parseTransition_names_witness :
  ∃ d, Parser.parseTransition transitionTwo = Ok d
    ∧ (transition_id d ≠ EmptyString
       ∧ all_chars (λ c, negb (Str.is_space c)) (transition_id d) = true)
    ∧ (transition_to d ≠ EmptyString
       ∧ all_chars (λ c, negb (Str.is_space c)) (transition_to d) = true)
    ∧ (transition_actor d ≠ EmptyString
       ∧ all_chars (λ c, negb (Str.is_space c)) (transition_actor d) = true)
    ∧ (∀ s, s ∈ Graph.fromStates d → all_chars (λ c, negb (Str.is_space c)) s = true)
    ∧ (∀ a, a ∈ default [] (transition_actions d) →
         all_chars (λ c, negb (Str.is_space c)) a = true)
    ∧ (∀ n, n ∈ default [] (transition_notifications d) →
         all_chars (λ c, negb (Str.is_space c)) n = true).
Proof.
  eexists. split; [vm_compute; reflexivity|].
  apply (parseTransition_names transitionTwo). vm_compute. reflexivity.
Defined.


(** ** The bracket count *)

Lemma bracket_scan_closed rest k :
  Parser.bracket_scan rest k 0 = (k, 0).
Proof. by destruct rest. Qed.

Lemma bracket_scan_sound rest k depth k' :
  0 < depth →
  Parser.bracket_scan rest k depth = (k', 0) →
  ∃ content tail,
    rest = content +:+ "]" +:+ tail
    ∧ k' = (k + Str.length content + 1)%nat
    ∧ brackets_balanced (depth - 1) content = true.
Proof.
  revert k depth. induction rest as [|c rest IH]; intros k depth Hdepth; simpl.
  - intros [= -> ->]. lia.
  - destruct (0 <? depth) eqn:Hpos; [|apply Z.ltb_ge in Hpos; lia].
    destruct (Ascii.eqb c "[") eqn:Hopen.
    { apply Ascii.eqb_eq in Hopen as ->.
      intros (content & tail & -> & -> & Hbal)%IH; [|lia].
      exists (String "[" content), tail. split; [done|]. split; [simpl; lia|].
      simpl. by replace (depth - 1 + 1) with (depth + 1 - 1) by lia. }
    destruct (Ascii.eqb c "]") eqn:Hclose.
    { apply Ascii.eqb_eq in Hclose as ->.
      destruct (decide (depth = 1)) as [->|Hne].
      - simpl. rewrite bracket_scan_closed. intros [= <-].
        exists EmptyString, rest. split; [done|]. split; [simpl; lia|done].
      - intros (content & tail & -> & -> & Hbal)%IH; [|lia].
        exists (String "]" content), tail. split; [done|]. split; [simpl; lia|].
        simpl. rewrite Hbal. by destruct (0 <? depth - 1) eqn:?; [|lia]. }
    intros (content & tail & -> & -> & Hbal)%IH; [|lia].
    exists (String c content), tail. split; [done|]. split; [simpl; lia|].
    simpl. by rewrite Hopen, Hclose.
Qed.

Lemma bracket_scan_complete content tail k depth :
  0 < depth →
  brackets_balanced (depth - 1) content = true →
  Parser.bracket_scan (content +:+ "]" +:+ tail) k depth
  = ((k + Str.length content + 1)%nat, 0).
Proof.
  revert k depth. induction content as [|c content IH]; intros k depth Hdepth.
  - simpl. intros ->%Z.eqb_eq%Z.sub_move_0_r.
    change (EmptyString +:+ "]" +:+ tail) with (String "]" tail). simpl.
    rewrite bracket_scan_closed. f_equal. lia.
  - rewrite app_cons. simpl.
    destruct (0 <? depth) eqn:Hpos; [|apply Z.ltb_ge in Hpos; lia].
    destruct (Ascii.eqb c "[") eqn:Hopen.
    { intros Hbal. rewrite IH; [f_equal; lia | lia |].
      by replace (depth + 1 - 1) with (depth - 1 + 1) by lia. }
    destruct (Ascii.eqb c "]") eqn:Hclose.
    { intros [Hpos' Hbal]%andb_true_iff. apply Z.ltb_lt in Hpos'.
      rewrite IH; [f_equal; lia | lia | done]. }
    intros Hbal. rewrite IH; [f_equal; lia | lia | done].
Qed.

(** X8: [extractBracketedContent] returns [content] exactly when the text
    behind the leftmost [key [] is [content], then the closing bracket, then
    anything, with the square brackets of [content] matching among
    themselves: the content runs to the bracket that closes the opening one.
    Braces and string literals are not looked at. *)
Theorem extractBracketedContent_spec (ednString key content : string) :
  Parser.extractBracketedContent ednString key = Some content ↔
  ∃ tail, Re.open_bracket key ednString = Some (content +:+ "]" +:+ tail)
    ∧ brackets_balanced 0 content = true.
Proof.
  unfold Parser.extractBracketedContent. split.
  - destruct (Re.open_bracket key ednString) as [rest|]; [|done].
    destruct (Parser.bracket_scan rest 0 1) as [k depth] eqn:Hscan.
    destruct (depth =? 0) eqn:Hdepth; [|done].
    apply Z.eqb_eq in Hdepth as ->.
    apply bracket_scan_sound in Hscan as (content' & tail & -> & -> & Hbal); [|lia].
    rewrite Nat.add_0_l, Nat.add_sub, take_app_string.
    intros [= <-]. by exists tail.
  - intros (tail & -> & Hbal).
    rewrite (bracket_scan_complete content tail 0 1) by (done || lia).
    rewrite Z.eqb_refl, Nat.add_0_l, Nat.add_sub. by rewrite take_app_string.
Qed.

Lemma extractBracketedContent_spec_witness :
  Parser.extractBracketedContent ":actions [[a] b] c]" ":actions" = Some "[a] b".
Proof.
  apply (extractBracketedContent_spec ":actions [[a] b] c]" ":actions" "[a] b").
  exists " c]". split; reflexivity.
Defined.

(** ** The reader and the builder agree *)

(** X9: a process that [parseEdn] returns is built by the builder of its
    own format: a modern text gives [format = v3] and goes to
    [generateV3GraphData], a legacy text gives no [format] and goes to
    [generateV2GraphData], with its id, states and transitions present. *)
Theorem parseEdn_then_generateGraphData (ednString : string) (p : TransactionProcess) :
  Parser.parseEdn ednString = Ok p →
  (Parser.isV3Format (Str.strip_comments ednString) = true
   ∧ format p = Some "v3" ∧ is_Some (transitions p) ∧ is_Some (notifications p)
   ∧ Graph.generateGraphData p = Graph.generateV3GraphData p)
  ∨ (Parser.isV3Format (Str.strip_comments ednString) = false
     ∧ format p = None
     ∧ is_Some (process_id p) ∧ is_Some (process_states p)
     ∧ is_Some (process_transitions p)
     ∧ Graph.generateGraphData p = Graph.generateV2GraphData p).
Proof.
  unfold Parser.parseEdn.
  destruct (Parser.isV3Format _) eqn:Hv3.
  - unfold Parser.parseV3Format. destruct (Parser.if_truthy _); [|done].
    intros [= <-]. left. simpl. eauto 10.
  - destruct (Parser.isV2Format _); [|done].
    unfold Parser.parseV2Format.
    destruct (Re.keyword _ _ _); [|done].
    destruct (Re.enclosed_after _ _ _ _); [|done].
    destruct (Re.transitions_block _); [|done].
    intros [= <-]. right. simpl. eauto 10.
Qed.

Lemma parseEdn_then_generateGraphData_witness :
  ∃ p, Parser.parseEdn docUnclosed = Ok p
    ∧ ((Parser.isV3Format (Str.strip_comments docUnclosed) = true
        ∧ format p = Some "v3" ∧ is_Some (transitions p) ∧ is_Some (notifications p)
        ∧ Graph.generateGraphData p = Graph.generateV3GraphData p)
       ∨ (Parser.isV3Format (Str.strip_comments docUnclosed) = false
          ∧ format p = None
          ∧ is_Some (process_id p) ∧ is_Some (process_states p)
          ∧ is_Some (process_transitions p)
          ∧ Graph.generateGraphData p = Graph.generateV2GraphData p)).
Proof.
  eexists. split; [vm_compute; reflexivity|].
  apply (parseEdn_then_generateGraphData docUnclosed). vm_compute. reflexivity.
Defined.


(** ** Letter case *)


Lemma toLowerCase_app s t :
  Str.toLowerCase (s +:+ t) = Str.toLowerCase s +:+ Str.toLowerCase t.
Proof. induction s as [|c s IH]; [done|]. rewrite app_cons. simpl. by rewrite IH. Qed.

(** X11: the colour of an actor does not depend on the case of its
    letters, nor on one leading [actor.role/]: [Customer],
    [actor.role/customer] and [customer] are drawn alike. *)
Theorem getActorColor_normalizes (a b : string) :
  (Str.toLowerCase a = Str.toLowerCase b → Graph.getActorColor a = Graph.getActorColor b)
  ∧ (Str.startsWith "actor.role/" (Str.toLowerCase a) = false →
     Graph.getActorColor ("actor.role/" +:+ a) = Graph.getActorColor a).
Proof.
  split.
  - intros Heq. unfold Graph.getActorColor. by rewrite Heq.
  - intros Hprefix. unfold Graph.getActorColor.
    rewrite toLowerCase_app.
    change (Str.toLowerCase "actor.role/") with "actor.role/".
    unfold Str.strip_prefix at 2. unfold Str.startsWith in Hprefix.
    destruct (Str.after_lit "actor.role/" (Str.toLowerCase a)); [done|].
    done.
Qed.

Lemma getActorColor_normalizes_witness :
  Str.toLowerCase "Customer" = Str.toLowerCase "CUSTOMER"
  ∧ Graph.getActorColor "Customer" = Graph.getActorColor "CUSTOMER"
  ∧ Str.startsWith "actor.role/" (Str.toLowerCase "Provider") = false
  ∧ Graph.getActorColor ("actor.role/" +:+ "Provider") = Graph.getActorColor "Provider".
Proof.
  split; [reflexivity|]. split.
  - apply (proj1 (getActorColor_normalizes "Customer" "CUSTOMER")). reflexivity.
  - split; [reflexivity|].
    apply (proj2 (getActorColor_normalizes "Provider" "Provider")). reflexivity.
Defined.





(** ** Levels that depend on the state *)

Section LevelBounds.

Variable outgoing : string -> list string.

(** A bound on the level of a state that holds for every level above 0. *)
Variable P : string → Z → Prop.

Hypothesis P_discovered : ∀ to n, 0 ≤ n → P to (n + 1).




End LevelBounds.

Lemma Math_max_values_finite levels k v :
  finite_levels levels → levels !! k = Some v →
  ∃ n, Num.Math_max (Graph.level_values levels) = Int n ∧ 0 ≤ n.
Proof.
  intros Hfin Hk. apply Math_max_finite.
  - by apply level_values_finite.
  - by eapply level_values_nonempty.
Qed.


Lemma discover_all_lookup currentLevel targets (st : list string * gmap string JsNum) to :
  to ∈ targets →
  (fold_left (Graph.discover currentLevel) targets st).2 !! to
  = Some (default (Num.add currentLevel (Int 1)) (st.2 !! to)).
Proof.
  intros Hin. revert st.
  induction Hin as [to targets|to u targets Hin IH]; intros st; simpl.
  - eapply lookup_weaken; [|apply discover_all_subseteq].
    unfold Graph.discover. destruct (st.2 !! to) eqn:Hto; simpl; [done|].
    by rewrite lookup_insert_eq.
  - rewrite IH. f_equal. unfold Graph.discover.
    destruct (st.2 !! u) eqn:Hu; [done|]. simpl.
    destruct (decide (u = to)) as [->|Hne].
    + by rewrite lookup_insert_eq, Hu.
    + by rewrite lookup_insert_ne.
Qed.

(** X14: in the modern layout the target of a transition without [from]
    is on level 1, the row under [initial] ([y = 280]), unless it is
    [initial] itself. *)
Theorem entry_target_on_second_row (t : V3TransitionDefinition) (to : string)
    (transitions : list V3TransitionDefinition) (states : list string) :
  t ∈ transitions → Graph.present (v3_from t) = false →
  Parser.if_truthy (v3_to t) = Some to → to ≠ "initial" →
  ∃ x, Graph.getImprovedTreePosition to transitions states = Some (x, Int 280).
Proof.
  intros Ht Hfrom Hto Hne.
  destruct (levelsV3_total transitions) as (levels & Hlevels & _ & _).
  unfold Graph.getImprovedTreePosition. rewrite Hlevels. simpl.
  assert (levels !! to = Some (Int 1)) as Hlevel.
  { unfold Graph.levelsV3 in Hlevels. simpl in Hlevels.
    destruct (decide ("initial" ∈ (∅ : gset string))) as [Hin|_]; [set_solver|].
    eapply lookup_weaken; [|eapply bfs_subseteq, Hlevels].
    rewrite discover_all_lookup.
    - simpl. by rewrite lookup_singleton_ne.
    - apply list_elem_of_omap. exists t. split; [done|].
      unfold Graph.from_or_initial, Graph.or_else. unfold Graph.present in Hfrom.
      destruct (v3_from t) as [f|]; [rewrite Hfrom|]; done. }
  unfold Graph.level_of, Graph.place_at_bottom, Graph.level_or_0.
  rewrite !Hlevel. simpl. eauto.
Qed.

Lemma entry_target_on_second_row_witness :
  ∃ x, Graph.getImprovedTreePosition "pending" (default [] (transitions entryProcess))
         ["initial"; "inquiry"; "pending"] = Some (x, Int 280).
Proof.
  eapply (entry_target_on_second_row _ "pending");
    [right; left | reflexivity | reflexivity | discriminate].
Defined.

(** ** The loop levels the states within reach, and no other *)

Lemma discover_queue currentLevel (st : list string * gmap string JsNum) to :
  (∀ s, s ∈ st.1 → s ∈ (Graph.discover currentLevel st to).1)
  ∧ is_Some ((Graph.discover currentLevel st to).2 !! to)
  ∧ (∀ s, is_Some ((Graph.discover currentLevel st to).2 !! s) →
       is_Some (st.2 !! s) ∨ (s = to ∧ s ∈ (Graph.discover currentLevel st to).1))
  ∧ (∀ s, s ∈ (Graph.discover currentLevel st to).1 →
       s ∈ st.1 ∨ s = to).
Proof.
  unfold Graph.discover. destruct (st.2 !! to) eqn:Hto; simpl.
  - rewrite Hto. naive_solver.
  - split; [intros s Hs; apply elem_of_app; by left|].
    split; [rewrite lookup_insert_eq; eauto|]. split.
    + intros s. destruct (decide (to = s)) as [->|Hne].
      * intros _. right. split; [done|]. apply elem_of_app. right. by left.
      * rewrite lookup_insert_ne by done. by left.
    + intros s [Hs|Hs%list_elem_of_singleton]%elem_of_app; eauto.
Qed.

Lemma discover_all_queue currentLevel targets (st : list string * gmap string JsNum) :
  (∀ s, s ∈ st.1 → s ∈ (fold_left (Graph.discover currentLevel) targets st).1)
  ∧ (∀ to, to ∈ targets →
       is_Some ((fold_left (Graph.discover currentLevel) targets st).2 !! to))
  ∧ (∀ s, is_Some ((fold_left (Graph.discover currentLevel) targets st).2 !! s) →
       is_Some (st.2 !! s)
       ∨ (s ∈ targets ∧ s ∈ (fold_left (Graph.discover currentLevel) targets st).1))
  ∧ (∀ s, s ∈ (fold_left (Graph.discover currentLevel) targets st).1 →
       s ∈ st.1 ∨ s ∈ targets).
Proof.
  revert st. induction targets as [|to targets IH]; intros st; simpl.
  - split; [done|]. split; [by intros to ?%elem_of_nil|]. split; eauto.
  - destruct (IH (Graph.discover currentLevel st to)) as (Hq & Hall & Hkeys & Hnew).
    destruct (discover_queue currentLevel st to) as (Hq1 & Hto1 & Hkeys1 & Hnew1).
    split; [eauto|]. split; [|split].
    + intros s [->|Hs]%elem_of_cons; [|by apply Hall].
      destruct Hto1 as [v Hv]. exists v.
      eapply lookup_weaken; [exact Hv|apply discover_all_subseteq].
    + intros s [Hs|[Hs Hs']]%Hkeys.
      * apply Hkeys1 in Hs as [Hs|[-> Hs]]; [by left|].
        right. split; [by left|]. by apply Hq.
      * right. split; [by right|done].
    + intros s [Hs|Hs]%Hnew.
      * apply Hnew1 in Hs as [Hs| ->]; [by left|]. right. by left.
      * right. by right.
Qed.

Section Reach.

Variable outgoing : string -> list string.
Variable roots : list string.

Lemma bfs_reach fuel queue (visited : gset string) levels levels' :
  (∀ s, is_Some (levels !! s) → s ∈ visited ∨ s ∈ queue) →
  (∀ s to, s ∈ visited → to ∈ outgoing s → is_Some (levels !! to)) →
  (∀ s, is_Some (levels !! s) → Reachable outgoing roots s) →
  (∀ s, s ∈ queue → is_Some (levels !! s)) →
  Graph.bfs outgoing fuel queue visited levels = Some levels' →
  (∀ s, is_Some (levels' !! s) → Reachable outgoing roots s)
  ∧ (∀ s to, is_Some (levels' !! s) → to ∈ outgoing s → is_Some (levels' !! to)).
Proof.
  revert queue visited levels.
  induction fuel as [|fuel IH]; intros queue visited levels Hkeys Hclosed Hsound Hqueue Hbfs.
  - destruct queue; simpl in Hbfs; [|done]. injection Hbfs as <-.
    split; [done|]. intros s to [Hs|Hs%elem_of_nil]%Hkeys; [eauto|done].
  - destruct queue as [|currentState queue]; simpl in Hbfs.
    { injection Hbfs as <-. split; [done|].
      intros s to [Hs|Hs%elem_of_nil]%Hkeys; [eauto|done]. }
    destruct (decide (currentState ∈ visited)) as [Hvisited|Hfresh].
    + eapply IH; [| | |  |exact Hbfs]; [|done|done|].
      * intros s [Hs|[->|Hs]%elem_of_cons]%Hkeys; eauto.
      * intros s Hs. apply Hqueue. by right.
    + destruct (discover_all_queue (Graph.level_or_0 levels currentState)
                  (outgoing currentState) (queue, levels))
        as (Hq & Hall & Hnewkeys & Hnew). simpl in *.
      pose proof (discover_all_subseteq (Graph.level_or_0 levels currentState)
                    (outgoing currentState) (queue, levels)) as Hsub. simpl in Hsub.
      assert (∀ s, is_Some (levels !! s) →
                is_Some ((fold_left (Graph.discover (Graph.level_or_0 levels currentState))
                            (outgoing currentState) (queue, levels)).2 !! s)) as Hmono.
      { intros s [v Hv]. exists v. by eapply lookup_weaken. }
      eapply IH; [| | | |exact Hbfs].
      * intros s [[Hs|[->|Hs]%elem_of_cons]%Hkeys|[_ Hs]]%Hnewkeys.
        -- left. apply elem_of_union. by right.
        -- left. apply elem_of_union. left. by apply elem_of_singleton.
        -- right. by apply Hq.
        -- by right.
      * intros s to [->%elem_of_singleton|Hs]%elem_of_union Hto.
        -- by apply Hall.
        -- apply Hmono. eauto.
      * intros s [Hs|[Hs _]]%Hnewkeys; [by apply Hsound|].
        eapply Reachable_step; [|exact Hs]. apply Hsound, Hqueue. by left.
      * intros s [Hs|Hs]%Hnew.
        -- apply Hmono, Hqueue. by right.
        -- by apply Hall.
Qed.

Lemma closed_reachable (levels : gmap string JsNum) :
  (∀ s, s ∈ roots → is_Some (levels !! s)) →
  (∀ s to, is_Some (levels !! s) → to ∈ outgoing s → is_Some (levels !! to)) →
  ∀ s, Reachable outgoing roots s → is_Some (levels !! s).
Proof. intros Hroots Hclosed s. induction 1; eauto. Qed.

End Reach.

Lemma roots_levels_lookup (roots : list string) (levels : gmap string JsNum) s :
  is_Some (fold_left (λ levels rootState, <[rootState := Int 0]> levels) roots levels !! s)
  ↔ s ∈ roots ∨ is_Some (levels !! s).
Proof.
  revert levels. induction roots as [|r roots IH]; intros levels; simpl.
  - rewrite elem_of_nil. tauto.
  - rewrite IH, elem_of_cons. destruct (decide (r = s)) as [->|Hne].
    + rewrite lookup_insert_eq. split; [intros _; by left; left | eauto].
    + rewrite lookup_insert_ne by done. split; [tauto|].
      intros [[Heq|?]|?]; [congruence|tauto..].
Qed.

Lemma levelsV3_reachable transitions levels s :
  Graph.levelsV3 transitions = Some levels →
  is_Some (levels !! s) ↔ Reachable (Graph.outgoingV3 transitions) ["initial"] s.
Proof.
  intros Hlevels. unfold Graph.levelsV3 in Hlevels.
  pose proof (bfs_subseteq _ _ _ _ _ _ Hlevels) as Hsub.
  apply (bfs_reach _ ["initial"]) in Hlevels as [Hsound Hclosed].
  - split; [apply Hsound|].
    apply closed_reachable; [|done].
    intros r ->%list_elem_of_singleton. exists (Int 0).
    eapply lookup_weaken; [|done]. by rewrite lookup_singleton_eq.
  - intros r [v Hr]. right. apply lookup_singleton_Some in Hr as [<- _]. by left.
  - set_solver.
  - intros r [v Hr]. apply lookup_singleton_Some in Hr as [<- _].
    apply Reachable_root. by left.
  - intros r ->%list_elem_of_singleton. by rewrite lookup_singleton_eq.
Qed.

Lemma levelsV2_reachable transitions states levels s :
  Graph.levelsV2 transitions states = Some levels →
  is_Some (levels !! s)
  ↔ Reachable (Graph.outgoingV2 transitions) (Graph.rootStates transitions states) s.
Proof.
  intros Hlevels. unfold Graph.levelsV2 in Hlevels.
  pose proof (bfs_subseteq _ _ _ _ _ _ Hlevels) as Hsub.
  apply (bfs_reach _ (Graph.rootStates transitions states)) in Hlevels
    as [Hsound Hclosed].
  - split; [apply Hsound|].
    apply closed_reachable; [|done].
    intros r Hr.
    assert (is_Some (fold_left (λ (levels : gmap string JsNum) rootState,
                                  <[rootState := Int 0]> levels)
                       (Graph.rootStates transitions states) ∅ !! r)) as [v Hv].
    { apply roots_levels_lookup. by left. }
    exists v. by eapply lookup_weaken.
  - intros r [Hr|[v Hr]]%roots_levels_lookup; [by right|]. by rewrite lookup_empty in Hr.
  - set_solver.
  - intros r [Hr|[v Hr]]%roots_levels_lookup;
      [by apply Reachable_root | by rewrite lookup_empty in Hr].
  - intros r Hr. apply roots_levels_lookup. by left.
Qed.

(** X15: the loop of either layout gives a level to exactly the states
    that a walk along the transitions reaches from its roots: from
    [initial] in the modern layout, from the declared states that no
    transition targets in the legacy one. Cycles and repeated transitions
    change nothing to that. *)
Theorem levelled_iff_reachable :
  (∀ transitions levels s,
      Graph.levelsV3 transitions = Some levels →
      is_Some (levels !! s) ↔ Reachable (Graph.outgoingV3 transitions) ["initial"] s)
  ∧ (∀ transitions states levels s,
      Graph.levelsV2 transitions states = Some levels →
      is_Some (levels !! s)
      ↔ Reachable (Graph.outgoingV2 transitions) (Graph.rootStates transitions states) s).
Proof. split; [apply levelsV3_reachable | apply levelsV2_reachable]. Qed.

Lemma levelled_iff_reachable_witness :
  ∃ levels, Graph.levelsV3 (default [] (transitions entryProcess)) = Some levels
    ∧ (is_Some (levels !! "pending")
       ↔ Reachable (Graph.outgoingV3 (default [] (transitions entryProcess)))
           ["initial"] "pending").
Proof.
  destruct (levelsV3_total (default [] (transitions entryProcess)))
    as (levels & Hlevels & _).
  exists levels. split; [exact Hlevels|].
  exact (proj1 levelled_iff_reachable _ _ _ Hlevels).
Defined.

(** ** Edge ids *)







Lemma edgesV2_of_index k k' t : Graph.edgesV2_of k t = Graph.edgesV2_of k' t.
Proof. done. Qed.



(** ** The nodes of a modern graph *)

Lemma add_endpoints_all_elem x transitions stateSet :
  x ∈ fold_left Graph.add_endpoints transitions stateSet →
  x ∈ stateSet
  ∨ ∃ t, t ∈ transitions
      ∧ (Parser.if_truthy (v3_from t) = Some x ∨ Parser.if_truthy (v3_to t) = Some x).
Proof.
  revert stateSet. induction transitions as [|t transitions IH]; intros stateSet; simpl;
    [by left|].
  intros [Hx|(u & Hu & Hx)]%IH.
  - unfold Graph.add_endpoints in Hx.
    destruct (Parser.if_truthy (v3_from t)) as [f|] eqn:Hf,
             (Parser.if_truthy (v3_to t)) as [to|] eqn:Hto;
      rewrite ?elem_of_set_add in Hx;
      destruct_or?; subst; eauto using list_elem_of_here.
  - right. exists u. split; [by right|done].
Qed.

(** X18: the nodes of a modern graph are, each once, the states that some
    transition names as its [from] or its [to], and [initial] when some
    transition has no [from]; no other node is made. *)
Theorem modern_nodes (processData : TransactionProcess) :
  ∃ g, Graph.generateV3GraphData processData = Some g
    ∧ NoDup (List.map node_id (nodes g))
    ∧ ∀ s, s ∈ List.map node_id (nodes g) ↔
        (s = "initial"
         ∧ ∃ t, t ∈ default [] (transitions processData)
             ∧ Graph.present (v3_from t) = false)
        ∨ ∃ t, t ∈ default [] (transitions processData)
            ∧ (Parser.if_truthy (v3_from t) = Some s
               ∨ Parser.if_truthy (v3_to t) = Some s).
Proof.
  destruct (generateV3GraphData_total processData) as (g & Hg & Hids & _).
  exists g. split; [done|]. rewrite Hids. split; [apply statesV3_NoDup|].
  intros s. split.
  - unfold Graph.statesV3. intros [Hs|?]%add_endpoints_all_elem; [|by right].
    left. destruct (List.filter _ _) as [|t l] eqn:Hfilter; [by apply elem_of_nil in Hs|].
    apply elem_of_set_add in Hs as [->|Hs%elem_of_nil]; [|done].
    split; [done|]. exists t.
    assert (In t (List.filter (λ t, negb (Graph.present (v3_from t)))
                    (default [] (transitions processData)))) as Hin
      by (rewrite Hfilter; by left).
    apply filter_In in Hin as [Hin Hp]. split; [by apply list_elem_of_In|].
    by apply negb_true_iff.
  - intros [[-> (t & Ht & Hfrom)]|(t & Ht & [Hs|Hs])].
    + by eapply statesV3_initial.
    + by eapply add_endpoints_all_from.
    + by eapply add_endpoints_all_to.
Qed.

(** ** Roots of the legacy layout *)

Lemma roots_levels_keep (roots : list string) (levels : gmap string JsNum) s :
  levels !! s = Some (Int 0) →
  fold_left (λ levels rootState, <[rootState := Int 0]> levels) roots levels !! s
  = Some (Int 0).
Proof.
  revert levels. induction roots as [|r roots IH]; intros levels Hs; simpl; [done|].
  apply IH. destruct (decide (r = s)) as [->|Hne].
  - by rewrite lookup_insert_eq.
  - by rewrite lookup_insert_ne.
Qed.

Lemma roots_levels_zero (roots : list string) (levels : gmap string JsNum) s :
  s ∈ roots →
  fold_left (λ levels rootState, <[rootState := Int 0]> levels) roots levels !! s
  = Some (Int 0).
Proof.
  intros Hin. revert levels.
  induction Hin as [s roots|s r roots Hin IH]; intros levels; simpl; [|apply IH].
  apply roots_levels_keep. by rewrite lookup_insert_eq.
Qed.



(** ** States out of reach *)

Lemma Math_max_upper (values : list JsNum) n :
  Int n ∈ values → ∃ m, Num.Math_max values = Int m ∧ n ≤ m.
Proof.
  induction values as [|v values IH]; [by intros ?%elem_of_nil|].
  change (Num.Math_max (v :: values)) with (Num.max v (Num.Math_max values)).
  intros [<-|Hin]%elem_of_cons.
  - destruct (Num.Math_max values) as [m|]; simpl; eexists; split; try done; lia.
  - destruct (IH Hin) as (m & -> & Hm).
    destruct v as [z|]; simpl; eexists; split; try done; lia.
Qed.

Lemma level_values_elem (levels : gmap string JsNum) s v :
  levels !! s = Some v → v ∈ Graph.level_values levels.
Proof.
  intros Hs. unfold Graph.level_values.
  apply (list_elem_of_fmap_2' snd _ (s, v)); [|done]. by apply elem_of_map_to_list.
Qed.

Lemma filter_only (f : string → bool) (l : list string) s :
  NoDup l → s ∈ l → (∀ x, x ∈ l → f x = true ↔ x = s) → List.filter f l = [s].
Proof.
  induction 1 as [|a l Hnotin Hnodup IH]; [by intros ?%elem_of_nil|].
  intros Hin Hf. simpl.
  assert (∀ x, x ∈ l → x ≠ s → f x = false) as Hrest.
  { intros x Hx Hne. destruct (f x) eqn:Hfx; [|done].
    destruct Hne. apply Hf; [by right|done]. }
  destruct (decide (a = s)) as [->|Hne].
  - rewrite (proj2 (Hf s (list_elem_of_here _ _)) eq_refl). f_equal.
    clear -Hnotin Hrest. induction l as [|b l IH]; [done|]. simpl.
    rewrite Hrest; [|by left|intros ->; apply Hnotin; by left].
    apply IH; [intros ?; apply Hnotin; by right|].
    intros x Hx. apply Hrest. by right.
  - destruct (f a) eqn:Hfa; [destruct Hne; apply Hf; [by left|done]|].
    apply elem_of_cons in Hin as [->|Hin]; [done|].
    apply IH; [done|]. intros x Hx. apply Hf. by right.
Qed.

(** X20: in the modern layout all the listed states that no walk from
    [initial] reaches get one and the same position: each is alone on the
    level under the deepest one of its own call, at [x = 400]. Two such
    nodes are drawn on top of each other. *)
Theorem out_of_reach_states_overlap (transitions : list V3TransitionDefinition)
    (states : list string) :
  NoDup states →
  ∃ deepest, 0 ≤ deepest ∧
    ∀ s, s ∈ states → ¬ Reachable (Graph.outgoingV3 transitions) ["initial"] s →
      Graph.getImprovedTreePosition s transitions states
      = Some (Int 400, Int ((deepest + 1) * 180 + 100)).
Proof.
  intros Hnodup.
  destruct (levelsV3_total transitions) as (levels & Hlevels & Hinit & Hfin).
  destruct (Math_max_values_finite _ _ _ Hfin Hinit) as (deepest & Hmax & Hdeepest).
  exists deepest. split; [done|]. intros s Hs Hout.
  assert (levels !! s = None) as Hnone.
  { destruct (levels !! s) eqn:Hlookup; [|done]. destruct Hout.
    by eapply levelsV3_reachable. }
  unfold Graph.getImprovedTreePosition. rewrite Hlevels. simpl.
  assert (Graph.level_of levels s = Int (deepest + 1)) as Hlevel.
  { unfold Graph.level_of, Graph.place_at_bottom, Graph.level_or_0.
    rewrite Hnone, lookup_insert_eq, Hmax. simpl.
    destruct (deepest + 1 =? 0) eqn:H0; [apply Z.eqb_eq in H0; lia|done]. }
  assert (Graph.statesAtLevel levels s states = [s]) as Hrow.
  { unfold Graph.statesAtLevel. rewrite Hlevel. apply filter_only; [done..|].
    intros x Hx. unfold Graph.at_level, Graph.place_at_bottom. rewrite Hnone.
    destruct (decide (s = x)) as [->|Hne].
    - rewrite lookup_insert_eq, Hmax. simpl. rewrite Z.eqb_refl. done.
    - rewrite lookup_insert_ne by done. split; [|by intros ->].
      destruct (levels !! x) as [v|] eqn:Hlx; [|done].
      destruct (Hfin _ _ Hlx) as (n & -> & _).
      destruct (Math_max_upper _ n (level_values_elem _ _ _ Hlx)) as (m & Hm & Hle).
      rewrite Hmax in Hm. injection Hm as <-. simpl.
      destruct (n =? deepest + 1) eqn:Heq; [apply Z.eqb_eq in Heq; lia|done]. }
  rewrite Hrow, Hlevel. simpl. by rewrite String.eqb_refl.
Qed.

Lemma out_of_reach_states_overlap_witness :
  ∃ deepest, 0 ≤ deepest ∧
    ∀ s, s ∈ ["initial"; "inquiry"; "lost"; "stray"] →
      ¬ Reachable (Graph.outgoingV3 (default [] (transitions entryProcess)))
          ["initial"] s →
      Graph.getImprovedTreePosition s (default [] (transitions entryProcess))
        ["initial"; "inquiry"; "lost"; "stray"]
      = Some (Int 400, Int ((deepest + 1) * 180 + 100)).
Proof.
  apply out_of_reach_states_overlap.
  repeat (apply NoDup_cons; split; [by apply (bool_decide_unpack _)|]).
  apply NoDup_nil_2.
Defined.

(** ** The grid layout *)

Lemma ceil_sqrt_spec (n : Z) :
  0 < n → 0 < ceil_sqrt n ∧ n ≤ ceil_sqrt n * ceil_sqrt n.
Proof.
  intros Hn. unfold ceil_sqrt.
  pose proof (Z.sqrt_up_spec n Hn) as [_ Hle].
  pose proof (Z.sqrt_up_pos n) as Hpos. unfold Z.pow in Hle. simpl in Hle.
  unfold Z.pow_pos in Hle. simpl in Hle. split; [apply Hpos; lia | lia].
Qed.

Lemma grid_position_inj (cols : Z) (i j : nat) :
  0 < cols → grid_position cols i = grid_position cols j → i = j.
Proof.
  intros Hcols [= Hx Hy].
  pose proof (Z.div_mod (Z.of_nat i) cols). pose proof (Z.div_mod (Z.of_nat j) cols).
  assert (Z.of_nat i `mod` cols = Z.of_nat j `mod` cols) by lia.
  assert (Z.of_nat i `div` cols = Z.of_nat j `div` cols) by lia.
  assert (Z.of_nat i = Z.of_nat j) by (rewrite (Z.div_mod (Z.of_nat i) cols), (Z.div_mod (Z.of_nat j) cols) by lia; congruence).
  lia.
Qed.

(** X21: the grid layout keeps the nodes, their order and their ids, and
    places the node of index [i] at column [i mod cols], row [i div cols] of
    a grid of [cols] columns, [cols] the least integer whose square is at
    least the number of nodes: no two nodes get the same position, and the
    grid has at most [cols] rows. *)
Theorem autoLayoutNodes_grid (nodes : list Node) :
  List.map node_id (autoLayoutNodes nodes) = List.map node_id nodes
  ∧ NoDup (List.map node_position (autoLayoutNodes nodes))
  ∧ ∀ i n, autoLayoutNodes nodes !! i = Some n →
      let cols := ceil_sqrt (Z.of_nat (List.length nodes)) in
      ∃ column row,
        node_position n = (Int (column * 280), Int (row * 120))
        ∧ 0 ≤ column < cols ∧ 0 ≤ row < cols
        ∧ Z.of_nat i = row * cols + column.
Proof.
  unfold autoLayoutNodes.
  set (cols := ceil_sqrt (Z.of_nat (List.length nodes))).
  change (List.map ?f ?l) with (f <$> l).
  split; [|split].
  - apply list_eq. intros i.
    rewrite !list_lookup_fmap, list_lookup_imap. by destruct (nodes !! i).
  - rewrite fmap_imap. simpl. apply NoDup_alt. intros i j p Hi Hj.
    rewrite list_lookup_imap in Hi, Hj.
    destruct (nodes !! i) as [a|] eqn:Ha; [|done].
    destruct (nodes !! j) as [b|]; [|done]. simpl in Hi, Hj.
    apply (grid_position_inj cols); [|congruence].
    apply lookup_lt_Some in Ha.
    apply ceil_sqrt_spec. lia.
  - intros i n Hn. rewrite list_lookup_imap in Hn.
    destruct (nodes !! i) as [a|] eqn:Ha; [|done]. injection Hn as <-. simpl.
    apply lookup_lt_Some in Ha.
    destruct (ceil_sqrt_spec (Z.of_nat (List.length nodes))) as [Hpos Hsq]; [lia|].
    fold cols in Hpos, Hsq.
    exists (Z.of_nat i `mod` cols), (Z.of_nat i `div` cols).
    split; [done|].
    pose proof (Z.mod_pos_bound (Z.of_nat i) cols Hpos).
    pose proof (Z.div_mod (Z.of_nat i) cols).
    assert (0 ≤ Z.of_nat i `div` cols) by (apply Z.div_pos; lia).
    split; [lia|]. split; [|lia]. split; [done|].
    apply Z.div_lt_upper_bound; [done|]. lia.
Qed.

(** ** Levels are distances *)

Section Shortest.

Variable outgoing : string -> list string.
Variable roots : list string.

Lemma level_Z_weaken (levels levels2 : gmap string JsNum) s :
  levels ⊆ levels2 → is_Some (levels !! s) → level_Z levels2 s = level_Z levels s.
Proof.
  intros Hsub [v Hv]. unfold level_Z.
  by rewrite (lookup_weaken _ _ _ _ Hv Hsub), Hv.
Qed.

Lemma level_or_0_level_Z (levels : gmap string JsNum) s n :
  levels !! s = Some (Int n) →
  Graph.level_or_0 levels s = Int n ∧ level_Z levels s = n.
Proof.
  intros Hs. unfold Graph.level_or_0, level_Z. rewrite Hs. split; [|done].
  simpl. destruct (n =? 0) eqn:Hn; [|done]. apply Z.eqb_eq in Hn. by subst.
Qed.

Lemma discover_all_news currentLevel targets (st : list string * gmap string JsNum) :
  ∃ news,
    (fold_left (Graph.discover currentLevel) targets st).1 = st.1 ++ news
    ∧ ∀ s, s ∈ news →
        st.2 !! s = None
        ∧ (fold_left (Graph.discover currentLevel) targets st).2 !! s
          = Some (Num.add currentLevel (Int 1)).
Proof.
  revert st. induction targets as [|to targets IH]; intros st; simpl.
  { exists []. split; [by rewrite List.app_nil_r|]. by intros s ?%elem_of_nil. }
  destruct (IH (Graph.discover currentLevel st to)) as (news & Hq & Hnews).
  pose proof (discover_all_subseteq currentLevel targets (Graph.discover currentLevel st to))
    as Hsub.
  unfold Graph.discover in *. destruct (st.2 !! to) eqn:Hto; [by exists news|].
  simpl in *. exists (to :: news). split; [by rewrite Hq, <- List.app_assoc|].
  intros s [->|Hs]%elem_of_cons.
  - split; [done|]. eapply lookup_weaken; [|exact Hsub]. by rewrite lookup_insert_eq.
  - destruct (Hnews s Hs) as [Hnone Hsome]. split; [|done].
    destruct (decide (to = s)) as [->|Hne]; [by rewrite lookup_insert_eq in Hnone|].
    by rewrite lookup_insert_ne in Hnone.
Qed.

Lemma discover_all_values currentLevel targets (st : list string * gmap string JsNum) s v :
  (fold_left (Graph.discover currentLevel) targets st).2 !! s = Some v →
  st.2 !! s = Some v
  ∨ (st.2 !! s = None ∧ s ∈ targets ∧ v = Num.add currentLevel (Int 1)).
Proof.
  intros Hv. destruct (st.2 !! s) as [w|] eqn:Hs.
  - left. pose proof (discover_all_subseteq currentLevel targets st) as Hsub.
    rewrite (lookup_weaken _ _ _ _ Hs Hsub) in Hv. done.
  - right. split; [done|].
    destruct (discover_all_queue currentLevel targets st) as (_ & _ & Hkeys & _).
    destruct (Hkeys s) as [[w Hw]|[Hin _]]; [eauto|congruence|].
    split; [done|]. rewrite (discover_all_lookup _ _ _ _ Hin), Hs in Hv.
    simpl in Hv. congruence.
Qed.

Lemma bfs_shortest fuel queue (visited : gset string) levels levels' :
  (∀ s v, levels !! s = Some v → ∃ n, v = Int n ∧ 0 ≤ n ∧ Walk outgoing roots n s) →
  (∀ s, is_Some (levels !! s) → s ∈ visited ∨ s ∈ queue) →
  (∀ s, s ∈ queue → is_Some (levels !! s)) →
  StronglySorted Z.le (level_Z levels <$> queue) →
  (∀ h q, queue = h :: q → ∀ s, is_Some (levels !! s) →
     level_Z levels s ≤ level_Z levels h + 1) →
  (∀ u v, u ∈ visited → v ∈ outgoing u →
     is_Some (levels !! v) ∧ level_Z levels v ≤ level_Z levels u + 1) →
  (∀ u, u ∈ visited → is_Some (levels !! u)) →
  Graph.bfs outgoing fuel queue visited levels = Some levels' →
  (∀ s v, levels' !! s = Some v → ∃ n, v = Int n ∧ 0 ≤ n ∧ Walk outgoing roots n s)
  ∧ (∀ u v, is_Some (levels' !! u) → v ∈ outgoing u →
       is_Some (levels' !! v) ∧ level_Z levels' v ≤ level_Z levels' u + 1).
Proof.
  revert queue visited levels.
  induction fuel as [|fuel IH];
    intros queue visited levels Hwalk Hkeys Hqueue Hsorted Hbound Hedge Hvis Hbfs.
  - destruct queue; simpl in Hbfs; [|done]. injection Hbfs as <-.
    split; [done|]. intros u v [Hu|Hu%elem_of_nil]%Hkeys; [eauto|done].
  - destruct queue as [|currentState queue]; simpl in Hbfs.
    { injection Hbfs as <-. split; [done|].
      intros u v [Hu|Hu%elem_of_nil]%Hkeys; [eauto|done]. }
    rewrite fmap_cons in Hsorted. apply StronglySorted_inv in Hsorted as [Htail Hhead].
    assert (∀ a, a ∈ queue → level_Z levels currentState ≤ level_Z levels a) as Hmin.
    { intros a Ha. rewrite Forall_forall in Hhead. apply Hhead.
      by apply list_elem_of_fmap_2. }
    specialize (Hbound currentState queue eq_refl).
    destruct (decide (currentState ∈ visited)) as [Hvisited|Hfresh].
    + eapply IH; [done| | |done| |done|done|exact Hbfs].
      * intros s [Hs|[->|Hs]%elem_of_cons]%Hkeys; eauto.
      * intros s Hs. apply Hqueue. by right.
      * intros h q -> s Hs. specialize (Hbound s Hs).
        specialize (Hmin h (list_elem_of_here _ _)). lia.
    + destruct (Hqueue currentState (list_elem_of_here _ _)) as [vc Hvc].
      destruct (Hwalk _ _ Hvc) as (L & -> & HL & Hwalkc).
      destruct (level_or_0_level_Z _ _ _ Hvc) as [Hcl HLz].
      rewrite Hcl in Hbfs. rewrite HLz in Hbound, Hmin.
      set (st := fold_left (Graph.discover (Int L)) (outgoing currentState) (queue, levels))
        in *.
      pose proof (discover_all_subseteq (Int L) (outgoing currentState) (queue, levels))
        as Hsub. fold st in Hsub. simpl in Hsub.
      destruct (discover_all_news (Int L) (outgoing currentState) (queue, levels))
        as (news & Hq & Hnews). fold st in Hq, Hnews. simpl in Hq, Hnews.
      pose proof (discover_all_values (Int L) (outgoing currentState) (queue, levels))
        as Hvalues. fold st in Hvalues. simpl in Hvalues.
      assert (∀ s, is_Some (levels !! s) → is_Some (st.2 !! s)) as Hmono.
      { intros s [v Hv]. exists v. by eapply lookup_weaken. }
      assert (∀ s, is_Some (st.2 !! s) → level_Z st.2 s ≤ L + 1) as Hdeep.
      { intros s [v Hv]. destruct (Hvalues _ _ Hv) as [Hold|(_ & _ & ->)].
        - rewrite (level_Z_weaken levels) by eauto. apply Hbound. eauto.
        - unfold level_Z. rewrite Hv. simpl. lia. }
      assert (∀ s, s ∈ news → level_Z st.2 s = L + 1) as Hnewlevel.
      { intros s [_ Hs]%Hnews. unfold level_Z. by rewrite Hs. }
      eapply IH; [| | | | | |  |exact Hbfs].
      * intros s v Hv. destruct (Hvalues _ _ Hv) as [Hold|(_ & Hin & ->)]; [eauto|].
        exists (L + 1). split; [done|]. split; [lia|]. by eapply Walk_step.
      * intros s [v Hv]. rewrite Hq.
        destruct (Hvalues _ _ Hv) as [Hold|(Hnone & Hin & _)].
        -- destruct (Hkeys s) as [?|[->|?]%elem_of_cons]; [eauto| | |].
           ++ left. apply elem_of_union. by right.
           ++ left. apply elem_of_union. left. by apply elem_of_singleton.
           ++ right. apply elem_of_app. by left.
        -- right.
           destruct (discover_all_queue (Int L) (outgoing currentState) (queue, levels))
             as (_ & _ & Hk & _). fold st in Hk. simpl in Hk.
           destruct (Hk s) as [[w Hw]|[_ Hs]]; [eauto|congruence|]. by rewrite <- Hq.
      * intros s. rewrite Hq. intros [Hs|Hs]%elem_of_app.
        -- apply Hmono, Hqueue. by right.
        -- destruct (Hnews s Hs) as [_ Hv]. eauto.
      * assert (level_Z st.2 <$> queue = level_Z levels <$> queue) as Hsame.
        { apply list_fmap_ext. intros i a Ha. apply level_Z_weaken; [done|].
          apply Hqueue. right. by eapply list_elem_of_lookup_2. }
        rewrite Hq, fmap_app, Hsame. apply StronglySorted_app_2.
        -- intros x1 x2 (a & -> & Ha)%list_elem_of_fmap_1 (b & -> & Hb)%list_elem_of_fmap_1.
           rewrite (Hnewlevel b Hb). apply Hbound, Hqueue. by right.
        -- exact Htail.
        -- assert (level_Z st.2 <$> news = replicate (List.length news) (L + 1)) as ->.
           { clear -Hnewlevel. induction news as [|a news IH]; [done|]. simpl. f_equal.
             - apply Hnewlevel. by left.
             - apply IH. intros s Hs. apply Hnewlevel. by right. }
           generalize (List.length news). intros k. induction k as [|k IHk]; simpl.
           ++ constructor.
           ++ constructor; [done|]. apply Forall_forall.
              intros x ->%elem_of_replicate_inv. lia.
      * intros h q Hhq s Hs. specialize (Hdeep s Hs).
        assert (h ∈ queue ++ news) as [Hh|Hh]%elem_of_app
          by (rewrite <- Hq, Hhq; by left).
        -- rewrite (level_Z_weaken levels st.2 h) by (done || (apply Hqueue; by right)).
           specialize (Hmin h Hh). lia.
        -- rewrite (Hnewlevel h Hh). lia.
      * intros u v [->%elem_of_singleton|Hu]%elem_of_union Hv.
        -- assert (is_Some (st.2 !! v)) as Hkey.
           { destruct (discover_all_queue (Int L) (outgoing currentState) (queue, levels))
               as (_ & Hall & _). by apply Hall. }
           split; [done|].
           rewrite (level_Z_weaken levels st.2 currentState) by eauto.
           rewrite HLz. by apply Hdeep.
        -- destruct (Hedge u v Hu Hv) as [Hkey Hle]. split; [by apply Hmono|].
           rewrite !(level_Z_weaken levels st.2) by eauto. done.
      * intros u [->%elem_of_singleton|Hu]%elem_of_union; apply Hmono; eauto.
Qed.

Lemma walk_level (levels : gmap string JsNum) :
  (∀ r, r ∈ roots → levels !! r = Some (Int 0)) →
  (∀ u v, is_Some (levels !! u) → v ∈ outgoing u →
     is_Some (levels !! v) ∧ level_Z levels v ≤ level_Z levels u + 1) →
  ∀ n s, Walk outgoing roots n s → is_Some (levels !! s) ∧ level_Z levels s ≤ n.
Proof.
  intros Hroots Hedge n s. induction 1 as [s Hs|n s to _ [Hkey Hle] Hto].
  - unfold level_Z. rewrite (Hroots s Hs). split; [eauto|done].
  - destruct (Hedge s to Hkey Hto). split; [done|lia].
Qed.

Lemma Walk_nonneg n s : Walk outgoing roots n s → 0 ≤ n.
Proof. induction 1; lia. Qed.

Lemma bfs_distance (levels : gmap string JsNum) n s :
  (∀ s v, levels !! s = Some v → ∃ n, v = Int n ∧ 0 ≤ n ∧ Walk outgoing roots n s) →
  (∀ u v, is_Some (levels !! u) → v ∈ outgoing u →
     is_Some (levels !! v) ∧ level_Z levels v ≤ level_Z levels u + 1) →
  (∀ r, r ∈ roots → levels !! r = Some (Int 0)) →
  Walk outgoing roots n s →
  (∀ m, Walk outgoing roots m s → n ≤ m) →
  levels !! s = Some (Int n).
Proof.
  intros Hwalk Hedge Hroots Hn Hleast.
  destruct (walk_level levels Hroots Hedge n s Hn) as [[v Hv] Hle].
  destruct (Hwalk s v Hv) as (k & -> & _ & Hk).
  unfold level_Z in Hle. rewrite Hv in Hle. specialize (Hleast k Hk).
  rewrite Hv. do 2 f_equal. lia.
Qed.

End Shortest.

Lemma level_of_levelled (levels : gmap string JsNum) s n :
  levels !! s = Some (Int n) → Graph.level_of levels s = Int n.
Proof.
  intros Hs. unfold Graph.level_of, Graph.place_at_bottom. rewrite Hs.
  by apply level_or_0_level_Z.
Qed.

Lemma levelsV3_distance transitions levels n s :
  Graph.levelsV3 transitions = Some levels →
  Walk (Graph.outgoingV3 transitions) ["initial"] n s →
  (∀ m, Walk (Graph.outgoingV3 transitions) ["initial"] m s → n ≤ m) →
  levels !! s = Some (Int n).
Proof.
  intros Hlevels. unfold Graph.levelsV3 in Hlevels.
  pose proof (bfs_subseteq _ _ _ _ _ _ Hlevels) as Hsub.
  apply (bfs_shortest _ ["initial"]) in Hlevels as [Hwalk Hedge].
  - apply bfs_distance; [done|done|].
    intros r ->%list_elem_of_singleton.
    eapply lookup_weaken; [|done]. by rewrite lookup_singleton_eq.
  - intros r v [<- <-]%lookup_singleton_Some. exists 0.
    split; [done|]. split; [lia|]. apply Walk_root. by left.
  - intros r [v Hr]. right. apply lookup_singleton_Some in Hr as [<- _]. by left.
  - intros r ->%list_elem_of_singleton. by rewrite lookup_singleton_eq.
  - simpl. constructor; [constructor|constructor].
  - intros h q [= <- <-] r [v Hr]. apply lookup_singleton_Some in Hr as [<- _]. lia.
  - set_solver.
  - set_solver.
Qed.

Lemma levelsV2_distance transitions states levels n s :
  Graph.levelsV2 transitions states = Some levels →
  Walk (Graph.outgoingV2 transitions) (Graph.rootStates transitions states) n s →
  (∀ m, Walk (Graph.outgoingV2 transitions) (Graph.rootStates transitions states) m s
        → n ≤ m) →
  levels !! s = Some (Int n).
Proof.
  intros Hlevels. unfold Graph.levelsV2 in Hlevels.
  pose proof (bfs_subseteq _ _ _ _ _ _ Hlevels) as Hsub.
  set (roots := Graph.rootStates transitions states) in *.
  set (levels0 := fold_left (λ (levels : gmap string JsNum) rootState,
                               <[rootState := Int 0]> levels) roots ∅) in *.
  assert (∀ r, is_Some (levels0 !! r) → r ∈ roots) as Hkeys.
  { intros r [Hr|[v Hr]]%roots_levels_lookup; [done|]. by rewrite lookup_empty in Hr. }
  assert (∀ r, r ∈ roots → levels0 !! r = Some (Int 0)) as Hzero.
  { intros r Hr. by apply roots_levels_zero. }
  assert (∀ r, level_Z levels0 r = 0) as Hlevel.
  { intros r. unfold level_Z. destruct (levels0 !! r) as [v|] eqn:Hr; [|done].
    rewrite Hzero in Hr by eauto. by injection Hr as <-. }
  apply (bfs_shortest _ roots) in Hlevels as [Hwalk Hedge].
  - apply bfs_distance; [done|done|].
    intros r Hr. eapply lookup_weaken; [|done]. by apply Hzero.
  - intros r v Hr. assert (r ∈ roots) as Hin by eauto.
    rewrite (Hzero r Hin) in Hr. injection Hr as <-. exists 0.
    split; [done|]. split; [lia|]. by apply Walk_root.
  - intros r Hr. right. by apply Hkeys.
  - intros r Hr. rewrite Hzero; eauto.
  - generalize roots. intros l. induction l as [|a l IH]; simpl; constructor; [done|].
    apply Forall_forall. intros x (b & -> & _)%list_elem_of_fmap_1.
    rewrite !Hlevel. lia.
  - intros h q _ r _. rewrite !Hlevel. lia.
  - set_solver.
  - set_solver.
Qed.

(** X22: the row of a state of a modern graph is its distance from
    [initial]: when the shortest walk along the transitions from [initial]
    to [state] has [n] transitions, the layout puts [state] at
    [y = n * 180 + 100]. *)
Theorem modern_row_is_distance transitions states state n :
  Walk (Graph.outgoingV3 transitions) ["initial"] n state →
  (∀ m, Walk (Graph.outgoingV3 transitions) ["initial"] m state → n ≤ m) →
  ∃ x, Graph.getImprovedTreePosition state transitions states
       = Some (x, Int (n * 180 + 100)).
Proof.
  intros Hn Hleast. unfold Graph.getImprovedTreePosition.
  destruct (levelsV3_total transitions) as (levels & Hlevels & _).
  rewrite Hlevels. simpl.
  rewrite (level_of_levelled levels state n) by by eapply levelsV3_distance.
  simpl. eauto.
Qed.

Lemma modern_row_is_distance_witness :
  ∃ x, Graph.getImprovedTreePosition "pending" (default [] (transitions entryProcess))
         ["initial"; "inquiry"; "pending"]
       = Some (x, Int (1 * 180 + 100)).
Proof.
  apply modern_row_is_distance.
  - apply (Walk_step _ _ 0 "initial"); [apply Walk_root; by left|].
    simpl. right. by left.
  - intros m Hm. inversion Hm as [s Hs|k s to Hk Hto]; subst.
    + apply list_elem_of_singleton in Hs. discriminate.
    + apply Walk_nonneg in Hk. lia.
Defined.

(** X23: the row of a state of a legacy graph is its distance from the
    root states (the declared states that no transition targets): when the
    shortest walk from a root to [state] has [n] transitions, the layout
    puts [state] at [y = n * 150 + 50]. *)
Theorem legacy_row_is_distance transitions states state n :
  Walk (Graph.outgoingV2 transitions) (Graph.rootStates transitions states) n state →
  (∀ m, Walk (Graph.outgoingV2 transitions) (Graph.rootStates transitions states) m state
        → n ≤ m) →
  ∃ x, Graph.getVerticalTreePositionV2 state transitions states
       = Some (x, Int (n * 150 + 50)).
Proof.
  intros Hn Hleast. unfold Graph.getVerticalTreePositionV2.
  destruct (levelsV2_total transitions states) as (levels & Hlevels & _).
  rewrite Hlevels. simpl.
  rewrite (level_of_levelled levels state n) by by eapply levelsV2_distance.
  simpl. eauto.
Qed.

Lemma legacy_row_is_distance_witness :
  ∃ x, Graph.getVerticalTreePositionV2 "cancelled" [fanOut]
         ["pending"; "accepted"; "paid"; "cancelled"]
       = Some (x, Int (1 * 150 + 50)).
Proof.
  apply legacy_row_is_distance.
  - apply (Walk_step _ _ 0 "pending"); [apply Walk_root; by left|].
    simpl. by left.
  - intros m Hm. inversion Hm as [s Hs|k s to Hk Hto]; subst.
    + simpl in Hs. apply list_elem_of_In in Hs. simpl in Hs.
      destruct Hs as [Hs|[Hs|[Hs|[]]]]; discriminate.
    + apply Walk_nonneg in Hk. lia.
Defined.

(** ** The maps of a modern document *)

Lemma drop_add_app pre whole k :
  Str.drop (Str.length pre + k) (pre +:+ whole) = Str.drop k whole.
Proof. induction pre as [|c pre IH]; [done|]. rewrite app_cons. simpl. exact IH. Qed.

Lemma slice_shift pre whole a b :
  Str.slice (Str.length pre + a) (S (Str.length pre + b)) (pre +:+ whole)
  = Str.slice a (S b) whole.
Proof.
  unfold Str.slice. rewrite drop_add_app. f_equal. lia.
Qed.

Lemma slice_middle pre middle rest :
  Str.slice (Str.length pre) (Str.length pre + Str.length middle)
    (pre +:+ (middle +:+ rest)) = middle.
Proof.
  unfold Str.slice.
  replace (Str.drop (Str.length pre) (pre +:+ (middle +:+ rest))) with (middle +:+ rest).
  - replace (Str.length pre + Str.length middle - Str.length pre)%nat
      with (Str.length middle) by lia. apply take_app_string.
  - induction pre as [|c pre IH]; [done|]. rewrite app_cons. simpl. exact IH.
Qed.

(** The loop reads a text the same way wherever the text stands. *)
Lemma scan_maps_shift {A} (on_map : string -> list A) pre whole rest i bracketCount start :
  Parser.scan_maps on_map (pre +:+ whole) rest (Str.length pre + i) bracketCount
    (Nat.add (Str.length pre) <$> start)
  = Parser.scan_maps on_map whole rest i bracketCount start.
Proof.
  revert i bracketCount start.
  induction rest as [|c rest IH]; intros i bracketCount start; simpl; [done|].
  rewrite <- !Nat.add_succ_r.
  destruct (Ascii.eqb c "{").
  { rewrite <- IH. f_equal. by destruct (bracketCount =? 0). }
  destruct (Ascii.eqb c "}"); [|apply IH].
  destruct start as [st|]; simpl.
  - destruct (bracketCount - 1 =? 0).
    + rewrite Nat.add_succ_r, slice_shift, <- Nat.add_succ_r. f_equal. apply (IH _ _ None).
    + apply (IH _ _ (Some st)).
  - apply (IH _ _ None).
Qed.

(** Text without a brace is passed over. *)
Lemma scan_maps_junk {A} (on_map : string -> list A) whole junk rest i bracketCount start :
  all_chars no_brace junk = true →
  Parser.scan_maps on_map whole (junk +:+ rest) i bracketCount start
  = Parser.scan_maps on_map whole rest (i + Str.length junk) bracketCount start.
Proof.
  revert i. induction junk as [|c junk IH]; intros i Hjunk.
  { rewrite app_nil_l. simpl. by rewrite Nat.add_0_r. }
  rewrite app_cons. simpl in *. apply andb_prop in Hjunk as [Hc Hjunk].
  unfold no_brace in Hc. apply andb_prop in Hc as [Ho Hc].
  apply negb_true_iff in Ho, Hc. rewrite Ho, Hc, IH by done. f_equal. lia.
Qed.

(** Inside a map the loop runs to the brace that closes it. *)
Lemma scan_maps_inner {A} (on_map : string -> list A) whole inner rest i depth st :
  0 ≤ depth →
  braces_balanced depth inner = true →
  Parser.scan_maps on_map whole (inner +:+ String "}" rest) i (depth + 1) (Some st)
  = on_map (Str.slice st (S (i + Str.length inner)) whole)
    ++ Parser.scan_maps on_map whole rest (S (i + Str.length inner)) 0 None.
Proof.
  revert i depth. induction inner as [|c inner IH]; intros i depth Hdepth Hbal.
  { simpl in Hbal. apply Z.eqb_eq in Hbal as ->. rewrite app_nil_l. simpl.
    by rewrite Nat.add_0_r. }
  rewrite app_cons. simpl in *. rewrite <- !Nat.add_succ_comm.
  destruct (Ascii.eqb c "{").
  { assert ((depth + 1 =? 0) = false) as -> by (apply Z.eqb_neq; lia).
    apply IH; [lia|done]. }
  destruct (Ascii.eqb c "}"); [|by apply IH].
  apply andb_prop in Hbal as [Hpos Hbal]. apply Z.ltb_lt in Hpos.
  assert ((depth + 1 - 1 =? 0) = false) as -> by (apply Z.eqb_neq; lia).
  replace (depth + 1 - 1) with (depth - 1 + 1) by lia.
  apply IH; [lia|done].
Qed.

Lemma scan_maps_top_level {A} (on_map : string -> list A) junk inner rest :
  all_chars no_brace junk = true →
  braces_balanced 0 inner = true →
  let whole := junk +:+ String "{" (inner +:+ String "}" rest) in
  Parser.scan_maps on_map whole whole 0 0 None
  = on_map (String "{" (inner +:+ "}"))
    ++ Parser.scan_maps on_map rest rest 0 0 None.
Proof.
  intros Hjunk Hbal whole. unfold whole at 2.
  rewrite scan_maps_junk by done. simpl.
  rewrite (scan_maps_inner _ _ _ _ _ 0) by done. f_equal.
  - f_equal.
    replace (S (S (Str.length junk) + Str.length inner))
      with (Str.length junk + Str.length (String "{" (inner +:+ "}")))%nat
      by (simpl; rewrite length_app_string; simpl; lia).
    unfold whole.
    replace (String "{" (inner +:+ String "}" rest))
      with (String "{" (inner +:+ "}") +:+ rest)
      by (by rewrite app_cons, app_assoc).
    apply slice_middle.
  - replace whole with ((junk +:+ String "{" (inner +:+ "}")) +:+ rest).
    + replace (S (S (Str.length junk) + Str.length inner))
        with (Str.length (junk +:+ String "{" (inner +:+ "}")) + 0)%nat.
      * apply (scan_maps_shift _ _ _ _ _ _ None).
      * rewrite length_app_string. simpl. rewrite length_app_string. simpl. lia.
    + unfold whole. rewrite app_assoc, app_cons, app_assoc. done.
Qed.

(** X24: the modern reader takes the maps of the [:transitions] vector one
    after the other: a text that begins, after characters that are no
    brace, with a map [{inner}] whose braces match is read as that map
    followed by the reading of what comes behind it; a map that has no
    [:name] gives nothing and the reading goes on. The vector of
    [:actions] is read the same way. *)
Theorem modern_maps_in_turn (junk inner rest : string) :
  all_chars no_brace junk = true →
  braces_balanced 0 inner = true →
  let map := String "{" (inner +:+ "}") in
  let text := junk +:+ String "{" (inner +:+ String "}" rest) in
  Parser.parseV3Transitions text
  = match Parser.parseV3Transition map with Ok d => [d] | Throw _ => [] end
    ++ Parser.parseV3Transitions rest
  ∧ Parser.parseV3Actions text
    = Parser.parseV3Action map ++ Parser.parseV3Actions rest
  ∧ Parser.parseV3Transitions junk = [].
Proof.
  intros Hjunk Hbal map text. unfold Parser.parseV3Transitions, Parser.parseV3Actions.
  split; [by apply scan_maps_top_level|]. split; [by apply scan_maps_top_level|].
  rewrite <- (app_nil_r junk) at 2. rewrite scan_maps_junk by done. done.
Qed.

Lemma modern_maps_in_turn_witness :
  Parser.parseV3Transitions " {:name :transition/a :to :state/b} {:to :state/c}"
  = [ {| v3_name := "transition/a"; v3_actor := None; v3_actions := None;
         v3_to := Some "b"; v3_from := None |} ]
    ++ Parser.parseV3Transitions " {:to :state/c}".
Proof.
  exact (proj1 (modern_maps_in_turn " " ":name :transition/a :to :state/b"
                  " {:to :state/c}" eq_refl eq_refl)).
Defined.

(** ** The stored files of the home page *)

Lemma find_file_Some fileId (files : list Home.StoredFile) file :
  List.find (λ f, String.eqb (Home.file_id f) fileId) files = Some file →
  file ∈ files ∧ Home.file_id file = fileId.
Proof.
  intros [Hin Heq]%find_some. split; [by apply list_elem_of_In|].
  by apply String.eqb_eq.
Qed.

Lemma find_file_None fileId (files : list Home.StoredFile) :
  List.find (λ f, String.eqb (Home.file_id f) fileId) files = None ↔
  ∀ f, f ∈ files → Home.file_id f ≠ fileId.
Proof.
  induction files as [|g files IH]; simpl.
  { split; [by intros _ f ?%elem_of_nil|done]. }
  destruct (String.eqb (Home.file_id g) fileId) eqn:Hg.
  - apply String.eqb_eq in Hg. split; [done|]. intros Hall.
    destruct (Hall g); [by left|done].
  - apply String.eqb_neq in Hg. rewrite IH. split.
    + intros Hall f [->|Hf]%elem_of_cons; [done|by apply Hall].
    + intros Hall f Hf. apply Hall. by right.
Qed.

Lemma find_file_app fileId (files more : list Home.StoredFile) :
  (∀ f, f ∈ files → Home.file_id f ≠ fileId) →
  List.find (λ f, String.eqb (Home.file_id f) fileId) (files ++ more)
  = List.find (λ f, String.eqb (Home.file_id f) fileId) more.
Proof.
  induction files as [|g files IH]; intros Hall; simpl; [done|].
  destruct (String.eqb (Home.file_id g) fileId) eqn:Hg.
  - apply String.eqb_eq in Hg. destruct (Hall g); [by left|done].
  - apply IH. intros f Hf. apply Hall. by right.
Qed.

Lemma renamed_files_ids (g : nat → Home.StoredFile → Home.StoredFile) files f :
  (∀ i f, Home.file_id (g i f) = Home.file_id f) →
  f ∈ files → ∃ f', f' ∈ imap g files ∧ Home.file_id f' = Home.file_id f.
Proof.
  intros Hg (i & Hi)%list_elem_of_lookup_1. exists (g i f). split; [|apply Hg].
  apply list_elem_of_lookup. exists i. by rewrite list_lookup_imap, Hi.
Qed.

Lemma handle_selection_stored st e :
  selection_stored st → selection_stored (Home.handle st e).
Proof.
  intros Hst. destruct e; simpl; try exact Hst.
  - unfold Home.handleVisualize. by destruct (visualize (Home.ednInput st)).
  - by left.
  - unfold Home.saveFile. destruct (negb _); [done|]. right. simpl.
    eexists. split; [apply elem_of_app; right; by left|done].
  - unfold Home.loadFile.
    destruct (find _ _) as [file|] eqn:Hfind; [|done].
    apply find_file_Some in Hfind as [Hin Hid]. right. by exists file.
  - unfold Home.deleteFile.
    destruct (String.eqb (Home.selectedFileId st) fileId) eqn:Hsel; [by left|].
    destruct Hst as [Hnone|(f & Hin & Hid)]; [by left|]. right. exists f.
    split; [|done]. simpl. apply list_elem_of_In, filter_In.
    split; [by apply list_elem_of_In|]. by rewrite Hid, Hsel.
  - unfold Home.saveFileName. destruct (negb _); [done|].
    destruct Hst as [Hnone|(f & Hin & Hid)]; [by left|]. right. simpl.
    rewrite <- Hid. apply renamed_files_ids; [|done].
    intros i g. by destruct (String.eqb (Home.file_id g) fileId).
  - by left.
Qed.

(** X25: the selection of the home page never dangles: whatever files the
    browser had stored and whatever is done on the page afterwards, the
    selected file id is empty or the id of a stored file. *)
Theorem selection_never_dangles (files : list Home.StoredFile) (events : list Home.Event) :
  selection_stored (Home.run events (Home.mounted files)).
Proof.
  unfold Home.run.
  assert (selection_stored (Home.mounted files)) as Hst by by left.
  revert Hst. generalize (Home.mounted files).
  induction events as [|e events IH]; intros st Hst; simpl; [done|].
  by apply IH, handle_selection_stored.
Qed.

(** X26: a saved text loads back: when the text is not blank and no stored
    file has the id that the clock gives, then after [saveFile], whatever is
    typed in between, [loadFile] of that id puts the saved text back and
    selects the file, and the stored files are the former ones followed by
    the new one. *)
Theorem saved_file_loads_back (clock : Home.Clock) (st : Home.State) (text : string) :
  Str.truthy (Str.trim (Home.ednInput st)) = true →
  (∀ f, f ∈ Home.storedFiles st → Home.file_id f ≠ pretty (Home.now_of_id clock)) →
  let loaded :=
    Home.loadFile (pretty (Home.now_of_id clock))
      (Home.setEdnInput text (Home.saveFile clock st)) in
  Home.ednInput loaded = Home.ednInput st
  ∧ Home.selectedFileId loaded = pretty (Home.now_of_id clock)
  ∧ Home.file_content <$> Home.storedFiles loaded
    = (Home.file_content <$> Home.storedFiles st) ++ [Home.ednInput st].
Proof.
  intros Htext Hfresh. unfold Home.saveFile. rewrite Htext. simpl.
  unfold Home.loadFile. simpl. rewrite find_file_app by done. simpl.
  rewrite String.eqb_refl. simpl. by rewrite fmap_app.
Qed.

Lemma saved_file_loads_back_witness :
  Home.ednInput
    (Home.loadFile "1752296644604"
       (Home.setEdnInput "{}"
          (Home.saveFile
             {| Home.now_of_name := 1752296644604; Home.now_of_id := 1752296644604;
                Home.iso_of_createdAt := "2025-07-12T05:04:04.604Z";
                Home.iso_of_updatedAt := "2025-07-12T05:04:04.604Z" |}
             (Home.setEdnInput docConstructor (Home.mounted [])))))
  = docConstructor.
Proof.
  refine (proj1 (saved_file_loads_back
                   {| Home.now_of_name := 1752296644604; Home.now_of_id := 1752296644604;
                      Home.iso_of_createdAt := "2025-07-12T05:04:04.604Z";
                      Home.iso_of_updatedAt := "2025-07-12T05:04:04.604Z" |}
                   (Home.setEdnInput docConstructor (Home.mounted [])) "{}" _ _)).
  - reflexivity.
  - intros f Hf. simpl in Hf. by apply elem_of_nil in Hf.
Defined.

Lemma filter_sublist {A} (f : A → bool) (l : list A) : sublist (List.filter f l) l.
Proof.
  induction l as [|a l IH]; simpl; [constructor|]. destruct (f a); by constructor.
Qed.

(** X27: a deleted file is gone: [deleteFile] removes every stored file of
    the id and no other, keeps the order of the rest, and a [loadFile] of
    that id afterwards changes nothing. *)
Theorem deleted_file_is_gone (fileId : string) (st : Home.State) :
  (∀ f, f ∈ Home.storedFiles (Home.deleteFile fileId st)
        ↔ f ∈ Home.storedFiles st ∧ Home.file_id f ≠ fileId)
  ∧ sublist (Home.storedFiles (Home.deleteFile fileId st)) (Home.storedFiles st)
  ∧ Home.loadFile fileId (Home.deleteFile fileId st) = Home.deleteFile fileId st.
Proof.
  assert (∀ f, f ∈ Home.storedFiles (Home.deleteFile fileId st)
               ↔ f ∈ Home.storedFiles st ∧ Home.file_id f ≠ fileId) as Hfiles.
  { intros f. unfold Home.deleteFile.
    assert (Home.storedFiles
              (if String.eqb (Home.selectedFileId st) fileId
               then Home.setSelectedFileId EmptyString
                      (Home.setStoredFiles
                         (List.filter (λ f, negb (String.eqb (Home.file_id f) fileId))) st)
               else Home.setStoredFiles
                      (List.filter (λ f, negb (String.eqb (Home.file_id f) fileId))) st)
            = List.filter (λ f, negb (String.eqb (Home.file_id f) fileId))
                (Home.storedFiles st)) as ->
      by by destruct (String.eqb (Home.selectedFileId st) fileId).
    rewrite !list_elem_of_In, filter_In, negb_true_iff, String.eqb_neq. done. }
  split; [done|]. split.
  - unfold Home.deleteFile.
    destruct (String.eqb (Home.selectedFileId st) fileId); apply filter_sublist.
  - unfold Home.loadFile.
    destruct (find _ _) as [file|] eqn:Hfind; [|done].
    apply find_file_Some in Hfind as [Hin Hid]. apply Hfiles in Hin as [_ Hne]. done.
Qed.

Lemma renamed_find (g : nat → Home.StoredFile → Home.StoredFile) fileId files :
  (∀ i f, Home.file_id (g i f) = Home.file_id f) →
  (∀ i f, Home.file_content (g i f) = Home.file_content f) →
  Home.file_content <$> List.find (λ f, String.eqb (Home.file_id f) fileId) (imap g files)
  = Home.file_content <$> List.find (λ f, String.eqb (Home.file_id f) fileId) files.
Proof.
  revert g. induction files as [|f files IH]; intros g Hid Hcontent; simpl; [done|].
  rewrite Hid. destruct (String.eqb (Home.file_id f) fileId); simpl.
  - by rewrite Hcontent.
  - apply IH; intros i f'; [apply Hid|apply Hcontent].
Qed.

(** X28: renaming changes names and dates only: [saveFileName] keeps the
    number, the order, the ids, the contents and the creation dates of the
    stored files, and what [loadFile] puts in the editor for any id is the
    same after it as before. *)
Theorem rename_keeps_contents (now : nat → string) (renamed fileId : string)
    (st : Home.State) :
  let st' := Home.saveFileName now renamed st in
  Home.file_id <$> Home.storedFiles st' = Home.file_id <$> Home.storedFiles st
  ∧ Home.file_content <$> Home.storedFiles st'
    = Home.file_content <$> Home.storedFiles st
  ∧ Home.file_createdAt <$> Home.storedFiles st'
    = Home.file_createdAt <$> Home.storedFiles st
  ∧ Home.ednInput (Home.loadFile fileId st') = Home.ednInput (Home.loadFile fileId st).
Proof.
  unfold Home.saveFileName. destruct (negb _); [done|]. simpl.
  set (g := λ (index : nat) f, if String.eqb (Home.file_id f) renamed then _ else f).
  assert (∀ i f, Home.file_id (g i f) = Home.file_id f) as Hid
    by (intros i f; unfold g; by destruct (String.eqb _ _)).
  assert (∀ i f, Home.file_content (g i f) = Home.file_content f) as Hcontent
    by (intros i f; unfold g; by destruct (String.eqb _ _)).
  assert (∀ i f, Home.file_createdAt (g i f) = Home.file_createdAt f) as Hcreated
    by (intros i f; unfold g; by destruct (String.eqb _ _)).
  assert (∀ (B : Type) (h : Home.StoredFile → B),
            (∀ i f, h (g i f) = h f) →
            h <$> imap g (Home.storedFiles st) = h <$> Home.storedFiles st) as Hkeep.
  { intros B h Hh. apply list_eq. intros i.
    rewrite !list_lookup_fmap, list_lookup_imap.
    destruct (Home.storedFiles st !! i); simpl; [by rewrite Hh|done]. }
  split; [by apply Hkeep|]. split; [by apply Hkeep|]. split; [by apply Hkeep|].
  unfold Home.loadFile. simpl.
  pose proof (renamed_find g fileId (Home.storedFiles st) Hid Hcontent) as Hfind.
  destruct (find _ (imap g _)) as [file'|], (find _ (Home.storedFiles st)) as [file|];
    simpl in *; congruence.
Qed.
